(** * node_manager_daemon_fkie/settings.py: the [Settings] configuration store

    A shallow embedding of the [Settings] class: the parameter tree as the
    YAML values Python sees, the path operations [param] and [set_param],
    the recursive merge [_apply_recursive] behind [apply], persistence
    ([reload], [save]) against one backing file, and the reload listeners.

    - Python objects are modelled by the inductive [Value]; a [dict] is a
      finite map with string keys, so two trees are equal exactly when
      every lookup agrees, whatever the order of their items.
    - Methods of the class are computations in a small state-and-exception
      monad.  The state holds the object ([self]), the backing file and
      the trace of everything the method printed, logged or called; an
      assignment into a nested [dict] is an update of the tree held by
      [self].  Trees are values: the properties are about trees in which
      no mapping object is reachable by two paths.
    - [yaml.load], [yaml.dump] and the strings taken from the process
      environment are parameters ([Environment]).
    - A reload listener is known by its identity, and a call of it is an
      entry of the trace: listeners are taken to return and to leave the
      object alone.  The lock [_mutex] has no part in a sequential run. *)

From Stdlib Require Import ZArith String Ascii List.
From Stdlib Require Import Floats.PrimFloat.
From stdpp Require Import base option list gmap strings fin_maps.

Set Warnings "-inexact-float,-register-all".
Open Scope string_scope.
Open Scope list_scope.

(** ** Python values *)

(** What [yaml.load] can return and what a tree may hold.  Mapping keys are
    strings, as in every tree this module builds or reads by path. *)
Inductive Value :=
  | VNone
  | VBool (b : bool)
  | VInt (n : Z)
  | VFloat (f : float)
  | VStr (s : string)
  | VList (l : list Value)
  | VDict (d : gmap string Value).

(** The exceptions the module meets.  [Exception msg] is the plain
    [Exception(msg)] that [set_param] raises itself, [OSError] what
    [os.makedirs] raises. *)
Inductive exn :=
  | KeyError (key : string)
  | TypeError
  | AttributeError
  | IOError
  | OSError
  | YAMLError
  | Exception (msg : string).

(** [isinstance(v, dict)] *)
Definition is_dict (v : Value) : bool :=
  match v with VDict _ => true | _ => false end.

(** Python truth value, as tested by [if x:]. *)
Definition truthy (v : Value) : bool :=
  match v with
  | VNone => false
  | VBool b => b
  | VInt n => negb (n =? 0)%Z
  | VFloat f => negb (PrimFloat.eqb f 0%float)
  | VStr s => negb (String.eqb s "")
  | VList l => match l with [] => false | _ => true end
  | VDict d => negb (bool_decide (d = ∅))
  end.

(** [v[key]] for a string [key]: a lookup in a dict, [KeyError] when the key
    is missing; every other type refuses a string subscript. *)
Definition getitem (v : Value) (key : string) : exn + Value :=
  match v with
  | VDict d =>
      match d !! key with
      | Some x => inr x
      | None => inl (KeyError key)
      end
  | _ => inl TypeError
  end.

(** ** Paths: [str.split('/')], [os.path.dirname], [os.path.basename] *)

Definition is_slash (c : ascii) : bool := Ascii.eqb c "/"%char.

(** [s.split('/')] *)
Fixpoint split_slash (s : string) : list string :=
  match s with
  | EmptyString => [EmptyString]
  | String c r =>
      if is_slash c then EmptyString :: split_slash r
      else match split_slash r with
           | h :: t => String c h :: t
           | [] => [String c EmptyString]
           end
  end.

(** [(p[:i], p[i:])] with [i = p.rfind('/') + 1]: the split both
    [posixpath.dirname] and [posixpath.basename] start from. *)
Fixpoint rsplit_slash (p : string) : string * string :=
  match p with
  | EmptyString => (EmptyString, EmptyString)
  | String c r =>
      let '(h, t) := rsplit_slash r in
      match h with
      | String _ _ => (String c h, t)
      | EmptyString =>
          if is_slash c then (String c EmptyString, t)
          else (EmptyString, String c t)
      end
  end.

(** [head == '/' * len(head)] *)
Fixpoint all_slashes (s : string) : bool :=
  match s with
  | EmptyString => true
  | String c r => is_slash c && all_slashes r
  end.

(** [s.rstrip('/')] *)
Fixpoint rstrip_slash (s : string) : string :=
  match s with
  | EmptyString => EmptyString
  | String c r =>
      match rstrip_slash r with
      | EmptyString => if is_slash c then EmptyString else String c EmptyString
      | r' => String c r'
      end
  end.

Definition dirname (p : string) : string :=
  let head := fst (rsplit_slash p) in
  if negb (String.eqb head "") && negb (all_slashes head)
  then rstrip_slash head else head.

Definition basename (p : string) : string := snd (rsplit_slash p).

(** ** The merge *)

(** [:hint], [:default], [:ro], [:min], [:max]: the keys [_apply_recursive]
    copies from the current tree. *)
Definition marker_keys : list string :=
  [":hint"; ":default"; ":ro"; ":min"; ":max"].

(** [Settings._is_writable]: the value stored under [':ro'] when the mapping
    has one, [True] otherwise.  Callers test the result with [if]. *)
Definition _is_writable (value : gmap string Value) : Value :=
  match value !! ":ro" with
  | Some ro => ro
  | None => VBool true
  end.

(** One turn of the loop of [_apply_recursive] for the item [key, value] of
    the current mapping; [recurse] is [_apply_recursive] itself.  Each
    [inl _] branch is the [except Exception] handler, which stores the old
    value.  A mapping that is not writable assigns nothing. *)
Definition apply_item (recurse : Value → Value → exn + Value)
    (new_data : Value) (key : string) (value : Value)
    (new_cfg : gmap string Value) : gmap string Value :=
  match value with
  | VDict d =>
      if truthy (_is_writable d) then
        match getitem new_data key with
        | inr sub =>
            match recurse sub value with
            | inr merged => <[key := merged]> new_cfg
            | inl _ => <[key := value]> new_cfg
            end
        | inl _ => <[key := value]> new_cfg
        end
      else new_cfg
  | _ =>
      if bool_decide (key ∉ marker_keys) then
        match new_data with
        | VDict nd =>
            match nd !! key with
            | Some x => <[key := x]> new_cfg
            | None => <[key := value]> new_cfg
            end
        | _ => <[key := new_data]> new_cfg
        end
      else <[key := value]> new_cfg
  end.

(** [Settings._apply_recursive(new_data, curr_value)].  [curr_value.items()]
    stands outside the [try], so a current value that is no mapping raises
    [AttributeError]; the diagnostic [print] of the handler is not
    modelled. *)
Fixpoint _apply_recursive (new_data curr_value : Value) {struct curr_value}
    : exn + Value :=
  match curr_value with
  | VDict items =>
      inr (VDict (map_fold (apply_item _apply_recursive new_data) ∅ items))
  | _ => inl AttributeError
  end.

(** ** Lookup by path *)

(** The loop [for item in path: value = value[item]] of [param]. *)
Fixpoint walk (path : list string) (value : Value) : exn + Value :=
  match path with
  | [] => inr value
  | item :: rest =>
      match getitem value item with
      | inr v => walk rest v
      | inl e => inl e
      end
  end.

(** The [try] block of [param]: the value found, or the exception that the
    handler prints. *)
Definition param_lookup (cfg : Value) (param_name : string)
    (extract_value : bool) : exn + Value :=
  match walk (split_slash param_name) cfg with
  | inr (VDict d) =>
      if extract_value then
        match d !! ":value" with
        | Some x => inr x
        | None => inr (VDict d)
        end
      else inr (VDict d)
  | inr v => inr v
  | inl e => inl e
  end.

(** The value [param] returns. *)
Definition param_value (cfg : Value) (param_name : string)
    (default_value : Value) (extract_value : bool) : Value :=
  match param_lookup cfg param_name extract_value with
  | inr v => v
  | inl _ => default_value
  end.

(** ** The environment *)

(** What the module takes from outside: the YAML library and two strings.
    The text of a YAML document is only handed from the file to the parser
    and from the serializer to the file, so its type is left open.
    [LOG_PATH] is the module constant of that name (read from the process
    environment at import) and [default_filename] is the expansion of
    [~/.config/ros.fkie/node_manager_daemon.yaml]. *)
Class Environment := {
  Text : Type;
  empty_text : Text;
  yaml_load : Text → exn + Value;
  yaml_dump : Value → exn + Text;
  LOG_PATH : string;
  default_filename : string
}.

(** ** The object, its backing file and the trace *)

(** A reload listener, by identity. *)
Definition callback := nat.

(** The attributes of a [Settings] object ([_mutex] apart: the model is
    sequential). *)
Record settings := {
  version : string;
  filename : string;
  _cfg : Value;
  _reload_callbacks : list callback
}.

(** What [rospy.loginfo], [rospy.logdebug] and [rospy.logwarn] are given. *)
Inductive log :=
  | LoadedConfiguration (file : string)
  | UseDefaultConfiguration (exc : exn)
  | ConfigurationSaved (file : string)
  | CantSaveConfiguration (file : string) (exc : exn)
  | ResetRequested
  | NewConfigurationApplied.

(** What a method does besides changing the object and the file: [print exc],
    a log call, or the call [callback(self)], recorded with the tree the
    callback is shown. *)
Inductive event :=
  | Printed (exc : exn)
  | Logged (l : log)
  | Called (cb : callback) (cfg : Value).

(** The file named [self.filename]: its text if it exists, whether it can
    be opened for reading and for writing, and whether what is written to
    it reaches it.  [directory] and [creatable] are about the directory
    part of the name, which only [__init__] looks at: whether it is an
    existing directory, and whether [os.makedirs] can create it. *)
Record file (Text : Type) := {
  content : option Text;
  readable : bool;
  writable : bool;
  room : bool;
  directory : bool;
  creatable : bool
}.
Arguments content {Text} _.
Arguments readable {Text} _.
Arguments writable {Text} _.
Arguments room {Text} _.
Arguments directory {Text} _.
Arguments creatable {Text} _.

Record state (Text : Type) := {
  self : settings;
  disk : file Text;
  trace : list event
}.
Arguments self {Text} _.
Arguments disk {Text} _.
Arguments trace {Text} _.

(** The state after an assignment to [self._cfg], after some events, after
    a write of the whole file, after a listener is appended, and after the
    directory of the file is created (the file is not there then). *)
Definition with_cfg {Text} (cfg : Value) (st : state Text) : state Text :=
  {| self := {| version := version (self st); filename := filename (self st);
                _cfg := cfg;
                _reload_callbacks := _reload_callbacks (self st) |};
     disk := disk st; trace := trace st |}.

Definition with_events {Text} (evs : list event) (st : state Text) : state Text :=
  {| self := self st; disk := disk st; trace := trace st ++ evs |}.

Definition with_content {Text} (text : Text) (st : state Text) : state Text :=
  {| self := self st;
     disk := {| content := Some text; readable := readable (disk st);
                writable := writable (disk st); room := room (disk st);
                directory := directory (disk st);
                creatable := creatable (disk st) |};
     trace := trace st |}.

Definition with_callback {Text} (cb : callback) (st : state Text) : state Text :=
  {| self := {| version := version (self st); filename := filename (self st);
                _cfg := _cfg (self st);
                _reload_callbacks := _reload_callbacks (self st) ++ [cb] |};
     disk := disk st; trace := trace st |}.

Definition with_directory {Text} (st : state Text) : state Text :=
  {| self := self st;
     disk := {| content := None; readable := readable (disk st);
                writable := writable (disk st); room := room (disk st);
                directory := true; creatable := creatable (disk st) |};
     trace := trace st |}.

(** ** State and exceptions *)

Module Settings.

Section Methods.

Context {env : Environment}.

(** A method run: from a state to the state it leaves, with the value it
    returns ([inr]) or the exception it raises ([inl]). *)
Definition M (A : Type) : Type := state Text → (exn + A) * state Text.

Definition ret {A} (a : A) : M A := λ st, (inr a, st).

Definition raise {A} (e : exn) : M A := λ st, (inl e, st).

Definition bind {A B} (c : M A) (k : A → M B) : M B := λ st,
  match c st with
  | (inr a, st') => k a st'
  | (inl e, st') => (inl e, st')
  end.

(** [try: body except ...: handler]: [handler exc] is [None] for an
    exception that no [except] clause names, which then goes on up. *)
Definition try_except {A} (body : M A) (handler : exn → option (M A)) : M A :=
  λ st,
  match body st with
  | (inr a, st') => (inr a, st')
  | (inl e, st') =>
      match handler e with
      | Some h => h st'
      | None => (inl e, st')
      end
  end.

Notation "x ← c ; k" := (bind c (λ x, k))
  (at level 20, c at level 100, k at level 200, only parsing).
Notation "c ;; k" := (bind c (λ _, k))
  (at level 100, k at level 200, right associativity).

(** The result of a pure step that may raise. *)
Definition lift {A} (r : exn + A) : M A := λ st, (r, st).

Definition get_self : M settings := λ st, (inr (self st), st).

Definition set_cfg (cfg : Value) : M unit := λ st, (inr tt, with_cfg cfg st).

Definition emit (ev : event) : M unit := λ st, (inr tt, with_events [ev] st).

Definition set_content (text : Text) : M unit := λ st,
  (inr tt, with_content text st).

(** [open(self.filename, 'r')] followed by reading the stream. *)
Definition open_read : M Text := λ st,
  match content (disk st) with
  | Some text => if readable (disk st) then (inr text, st) else (inl IOError, st)
  | None => (inl IOError, st)
  end.

(** [open(self.filename, 'w')]: truncates (or creates) the file. *)
Definition open_write : M unit := λ st,
  if writable (disk st) then set_content empty_text st else (inl IOError, st).

(** [stream.write(text)]: the stream is buffered, and the text of a
    configuration waits in its buffer.  The result is what the buffer
    holds. *)
Definition stream_write (text : Text) : M (option Text) := ret (Some text).

(** The end of [with open(...) as stream]: the stream is closed and what
    its buffer holds goes to the file.  A file that cannot take the text
    raises [IOError] here, and stays as [open] left it. *)
Definition stream_close (buffer : option Text) : M unit := λ st,
  match buffer with
  | Some text => if room (disk st) then set_content text st else (inl IOError, st)
  | None => (inr tt, st)
  end.

(** [os.path.isdir(path)]: the empty path is no directory. *)
Definition isdir (path : string) : M bool := λ st,
  (inr (negb (String.eqb path "") && directory (disk st)), st).

(** [os.makedirs(path)]: refuses the empty path. *)
Definition makedirs (path : string) : M unit := λ st,
  if negb (String.eqb path "") && creatable (disk st)
  then (inr tt, with_directory st) else (inl OSError, st).

(** ** The methods *)

(** [Settings.default] *)
Definition default (self : settings) : Value :=
  VDict {[
    "global" := VDict {[
      "version" := VDict {[ ":value" := VStr (version self); ":ro" := VBool true ]};
      "file" := VDict {[ ":value" := VStr (filename self); ":ro" := VBool true ]};
      "grpc_timeout" := VDict {[
        ":value" := VFloat 15.0; ":min" := VInt 0; ":default" := VFloat 15.0;
        ":hint" := VStr "timeout for connection to remote gRPC-server" ]};
      "only_diagnostics_agg" := VBool false;
      "reset" := VBool false ]};
    "sysmon" := VDict {[
      "CPU" := VDict {[ "load_warn_level" := VFloat 0.9 ]};
      "Disk" := VDict {[
        "usage_warn_level" := VDict {[
          ":value" := VInt 100; ":default" := VFloat 100.0;
          ":hint" := VStr "values in MB" ]};
        "path" := VStr LOG_PATH ]};
      "Memory" := VDict {[
        "usage_warn_level" := VDict {[
          ":value" := VInt 100; ":default" := VFloat 100.0;
          ":hint" := VStr "values in MB" ]} ]};
      "Network" := VDict {[
        "load_warn_level" := VDict {[
          ":value" := VFloat 0.9; ":default" := VFloat 0.9;
          ":hint" := VStr "Percent of the maximum speed" ]};
        "speed" := VDict {[
          ":value" := VInt 6; ":default" := VInt 6;
          ":hint" := VStr "Maximal speed in MBit" ]};
        "interface" := VStr "" ]} ]} ]}.

(** [Settings.param]: a failed lookup is printed and answered with
    [default_value]. *)
Definition param (param_name : string) (default_value : Value)
    (extract_value : bool) : M Value :=
  s ← get_self;
  match param_lookup (_cfg s) param_name extract_value with
  | inr v => ret v
  | inl exc => emit (Printed exc);; ret default_value
  end.

(** The last step of [set_param], at the mapping [cfg_item] the path led
    to: the mapping after the step (it is updated in place) and the
    exception raised, if any. *)
Definition set_leaf (param_name pname : string) (value cfg_item : Value)
    : Value * option exn :=
  match cfg_item with
  | VDict d =>
      match d !! pname with
      | Some (VDict leaf) =>
          if truthy (_is_writable leaf)
          then (VDict (<[pname := VDict (<[":value" := value]> leaf)]> d), None)
          else (cfg_item,
                Some (Exception (param_name +:+ " is a read only parameter!")))
      | Some _ => (VDict (<[pname := value]> d), None)
      | None => (VDict (<[pname := VDict {[ ":value" := value ]}]> d), None)
      end
  | _ => (cfg_item, Some TypeError)
  end.

(** The loop of [set_param] over the items of the directory part, followed
    by [final]: empty items are skipped, a missing item becomes a new empty
    mapping, and whatever is not a mapping refuses both [in] and the
    subscript that follows it. *)
Fixpoint set_walk (path : list string) (final : Value → Value * option exn)
    (cfg_item : Value) : Value * option exn :=
  match path with
  | [] => final cfg_item
  | item :: rest =>
      if String.eqb item "" then set_walk rest final cfg_item
      else
        match cfg_item with
        | VDict d =>
            let child := match d !! item with Some c => c | None => VDict ∅ end in
            let '(child', r) := set_walk rest final child in
            (VDict (<[item := child']> d), r)
        | _ => (cfg_item, Some TypeError)
        end
  end.

(** [Settings.save]: only [yaml.YAMLError] is handled, and the file is
    opened before the tree is serialized.  The [with] block closes the
    stream after the [try] statement, so "Configuration saved" is logged
    before the text reaches the file. *)
Definition save : M unit :=
  s ← get_self;
  open_write;;
  buffer ← try_except
    (text ← lift (yaml_dump (_cfg s));
     buffer ← stream_write text;
     emit (Logged (ConfigurationSaved (filename s)));;
     ret buffer)
    (λ exc, match exc with
            | YAMLError =>
                Some (emit (Logged (CantSaveConfiguration (filename s) exc));;
                      ret None)
            | _ => None
            end);
  stream_close buffer.

(** [Settings.set_param]: every [Exception] of the body, that of [save]
    included, is printed. *)
Definition set_param (param_name : string) (value : Value) : M unit :=
  try_except
    (s ← get_self;
     let '(cfg, r) :=
       set_walk (split_slash (dirname param_name))
         (set_leaf param_name (basename param_name) value) (_cfg s) in
     set_cfg cfg;;
     match r with
     | Some exc => raise exc
     | None => save
     end)
    (λ exc, Some (emit (Printed exc))).

(** [callback(self)] *)
Definition call (cb : callback) : M unit :=
  s ← get_self; emit (Called cb (_cfg s)).

Fixpoint for_each {A} (f : A → M unit) (l : list A) : M unit :=
  match l with
  | [] => ret tt
  | x :: rest => f x;; for_each f rest
  end.

(** [Settings._notify_reload_callbacks] *)
Definition _notify_reload_callbacks : M unit :=
  s ← get_self; for_each call (_reload_callbacks s).

(** [Settings.reload] *)
Definition reload : M unit :=
  s ← get_self;
  try_except
    (text ← open_read;
     result ← lift (yaml_load text);
     emit (Logged (LoadedConfiguration (filename s)));;
     set_cfg result)
    (λ exc, match exc with
            | YAMLError | IOError =>
                Some (emit (Logged (UseDefaultConfiguration exc));;
                      set_cfg (default s))
            | _ => None
            end);;
  _notify_reload_callbacks.

(** [Settings.yaml] *)
Definition yaml : M Text :=
  s ← get_self; lift (yaml_dump (_cfg s)).

(** [Settings.apply] *)
Definition apply (data : Text) : M unit :=
  new_data ← lift (yaml_load data);
  s ← get_self;
  merged ← lift (_apply_recursive new_data (_cfg s));
  set_cfg merged;;
  do_reset ← param "global/reset" (VBool false) true;
  (if truthy do_reset
   then emit (Logged ResetRequested);; set_cfg (default s)
   else emit (Logged NewConfigurationApplied));;
  save;;
  _notify_reload_callbacks.

(** [Settings.add_reload_listener] *)
Definition add_reload_listener (cb : callback) (call_now : bool) : M unit :=
  s ← get_self;
  if bool_decide (cb ∉ _reload_callbacks s) then
    (λ st, (inr tt, with_callback cb st));;
    if call_now then call cb else ret tt
  else ret tt.

(** [Settings.__init__]: a new object with no listener yet, loaded from
    its file, whose directory is created when it is missing.  The new
    object has no attribute but those assigned; its record starts with the
    empty list that line 61 assigns and with [None] for the tree, which
    nothing reads before [reload] assigns it.  An object whose [__init__]
    raises is never handed out.  The module global [GRPC_TIMEOUT], which
    takes the value read last, lies outside the object. *)
Definition __init__ (filename version : string) : M unit :=
  let name := if String.eqb filename "" then default_filename else filename in
  let cfg_path := dirname name in
  (λ st, (inr tt,
          {| self := {| version := version;
                        filename := name;
                        _cfg := VNone;
                        _reload_callbacks := [] |};
             disk := disk st; trace := trace st |}));;
  is_dir ← isdir cfg_path;
  (if is_dir then ret tt else makedirs cfg_path);;
  reload;;
  _ ← param "global/grpc_timeout" (VFloat 15.0) true;
  ret tt.

End Methods.

End Settings.

(** ** Notions used to state the properties *)

(** What the loop of [_apply_recursive] leaves under [key] for the item
    [key, value] of the current mapping: [None] when it assigns nothing. *)
Definition item_result (new_data : Value) (key : string) (value : Value)
    : option Value :=
  apply_item _apply_recursive new_data key value ∅ !! key.

(** The mapping or value found by following [path] through existing
    mappings only, empty items skipped: the walk of [set_param] where it
    creates nothing. *)
Fixpoint descend (path : list string) (v : Value) : option Value :=
  match path with
  | [] => Some v
  | item :: rest =>
      if String.eqb item "" then descend rest v
      else match v with
           | VDict d => d !! item ≫= descend rest
           | _ => None
           end
  end.

(** The node that [set_param param_name _] finds in place, if there is
    one. *)
Definition node_at (cfg : Value) (param_name : string) : option Value :=
  match descend (split_slash (dirname param_name)) cfg with
  | Some (VDict d) => d !! basename param_name
  | _ => None
  end.

(** Every mapping below the root passes the test the merge makes before it
    recurses. *)
Fixpoint groups_writable (v : Value) : bool :=
  match v with
  | VDict d =>
      map_fold (λ _ child ok,
        ok && match child with
              | VDict c => truthy (_is_writable c) && groups_writable child
              | _ => true
              end) true d
  | _ => true
  end.

(** Nesting measure: mappings count, everything else is a leaf. *)
Fixpoint height (v : Value) : nat :=
  match v with
  | VDict d => S (map_fold (λ _ child n, height child + n) 0 d)
  | _ => 0
  end.

(** The [Called] events of a trace, in order. *)
Definition calls (tr : list event) : list (callback * Value) :=
  omap (λ ev, match ev with Called cb cfg => Some (cb, cfg) | _ => None end) tr.

(** ** A reference environment and sample inputs *)

(** A YAML library in which a text is the document it denotes ([None] for
    text that does not parse) and an empty file denotes [None], as PyYAML
    reads it. *)
Definition reference : Environment := {|
  Text := option Value;
  empty_text := Some VNone;
  yaml_load := λ text, match text with Some v => inr v | None => inl YAMLError end;
  yaml_dump := λ v, inr (Some v);
  LOG_PATH := "/home/ros/.ros/log/";
  default_filename := "/home/ros/.config/ros.fkie/node_manager_daemon.yaml"
|}.

Definition sample_self (cfg : Value) (cbs : list callback) : settings := {|
  version := "1.0.1";
  filename := "/tmp/node_manager_daemon.yaml";
  _cfg := cfg;
  _reload_callbacks := cbs
|}.

(** The built-in tree of the sample object. *)
Definition sample_default : Value :=
  @Settings.default reference (sample_self VNone []).

Definition sample_disk (text : option (option Value)) (w : bool)
    : file (option Value) :=
  {| content := text; readable := true; writable := w; room := true;
     directory := true; creatable := true |}.

Definition sample_state (cfg : Value) (cbs : list callback)
    (text : option (option Value)) (w : bool) : state (option Value) :=
  {| self := sample_self cfg cbs; disk := sample_disk text w; trace := [] |}.

(** The merge evaluates [new_data[key]] for the item [key, value]: for a
    writable mapping always, for another value only under a key that is no
    marker and with a mapping as incoming data. *)
Definition lookup_attempted (new_data : Value) (key : string) (value : Value)
    : bool :=
  match value with
  | VDict d => truthy (_is_writable d)
  | _ => bool_decide (key ∉ marker_keys) && is_dict new_data
  end.

(** The tree [v] with the node at [path] replaced by [f] of it, and nothing
    else touched; a path that leaves the tree changes nothing. *)
Fixpoint alter_at (path : list string) (f : Value → Value) (v : Value) : Value :=
  match path with
  | [] => f v
  | key :: rest =>
      match v with
      | VDict d => VDict (alter (alter_at rest f) key d)
      | _ => v
      end
  end.

(** The payload of Scenario E: [{"global": {"grpc_timeout": x}}]. *)
Definition timeout_payload (x : Value) : Value :=
  VDict {[ "global" := VDict {[ "grpc_timeout" := x ]} ]}.

(** The state in which [apply] calls [save], [merged] being the result of
    the merge: the tree is assigned, [global/reset] is read (a failed
    lookup is printed), and the built-in tree is installed on request. *)
Definition applied `{env : Environment} (st : state Text) (merged : Value)
    : state Text :=
  let st1 := with_cfg merged st in
  let st2 := match param_lookup merged "global/reset" true with
             | inr _ => st1
             | inl exc => with_events [Printed exc] st1
             end in
  if truthy (param_value merged "global/reset" (VBool false) true)
  then with_cfg (Settings.default (self st)) (with_events [Logged ResetRequested] st2)
  else with_events [Logged NewConfigurationApplied] st2.

(** The items of a mapping (none for another value). *)
Definition items_of (v : Value) : gmap string Value :=
  match v with VDict d => d | _ => ∅ end.

(** What the [try] block of [reload] reads: the parse of the file's text,
    or the exception of [open] or of [yaml.load]. *)
Definition load_file `{env : Environment} (st : state Text) : exn + Value :=
  match content (disk st) with
  | Some text => if readable (disk st) then yaml_load text else inl IOError
  | None => inl IOError
  end.

(** The exceptions [reload] handles: [except (yaml.YAMLError, IOError)]. *)
Definition handled_by_reload (exc : exn) : bool :=
  match exc with
  | YAMLError | IOError => true
  | _ => false
  end.

(** How often the listener [cb] is called in a list of calls. *)
Definition times_called (cb : callback) (cs : list (callback * Value)) : nat :=
  length (filter (λ c, c.1 = cb) cs).

(** A call of one of the methods that change the object or the file, and
    the state a sequence of such calls leaves (a call that raises leaves
    the state it raised in). *)
Inductive request `{env : Environment} :=
  | SetParam (param_name : string) (value : Value)
  | Reload
  | Save
  | Apply (data : Text)
  | AddReloadListener (cb : callback) (call_now : bool).

Definition serve `{env : Environment} (st : state Text) (r : request)
    : state Text :=
  match r with
  | SetParam param_name value => snd (Settings.set_param param_name value st)
  | Reload => snd (Settings.reload st)
  | Save => snd (Settings.save st)
  | Apply data => snd (Settings.apply data st)
  | AddReloadListener cb call_now =>
      snd (Settings.add_reload_listener cb call_now st)
  end.

Definition serve_all `{env : Environment} (st : state Text)
    (rs : list request) : state Text :=
  fold_left serve rs st.

(** Unfolds the steps of a method run. *)
Ltac unfold_run :=
  unfold Settings.bind, Settings.try_except, Settings.ret, Settings.raise,
    Settings.lift, Settings.get_self, Settings.set_cfg, Settings.emit,
    Settings.set_content, Settings.open_read, Settings.open_write,
    Settings.stream_write, Settings.stream_close, Settings.isdir,
    Settings.makedirs, Settings.call in *.

(** ** Notions used for the further properties *)

(** The items the loop of [set_param] does not skip. *)
Definition nonempty_items (path : list string) : list string :=
  filter (λ item, item ≠ "") path.

(** A parameter name none of whose items is empty: no leading, trailing
    or doubled slash, and not the empty name. *)
Definition plain_name (param_name : string) : bool :=
  forallb (λ item, negb (String.eqb item "")) (split_slash param_name).

(** The node [set_param] leaves under the final key, [found] being what it
    found there: the leaf with its [:value] replaced, the new value in
    place of a value that is no mapping, or a new leaf. *)
Definition stored_node (value : Value) (found : option Value) : Value :=
  match found with
  | Some (VDict leaf) => VDict (<[":value" := value]> leaf)
  | Some _ => value
  | None => VDict {[ ":value" := value ]}
  end.

(** The walk of [set_param] meets no exception: every node it steps on is
    a mapping, and the node under the final key, when it is a mapping,
    passes the writability test. *)
Fixpoint can_set (path : list string) (pname : string) (cfg_item : Value) : bool :=
  match path with
  | [] =>
      match cfg_item with
      | VDict d =>
          match d !! pname with
          | Some (VDict leaf) => truthy (_is_writable leaf)
          | _ => true
          end
      | _ => false
      end
  | item :: rest =>
      if String.eqb item "" then can_set rest pname cfg_item
      else match cfg_item with
           | VDict d =>
               match d !! item with
               | Some child => can_set rest pname child
               | None => true
               end
           | _ => false
           end
  end.

(** [can_set] for the name [param_name], as [set_param] splits it. *)
Definition settable (cfg : Value) (param_name : string) : bool :=
  can_set (split_slash (dirname param_name)) (basename param_name) cfg.

(** The tree [set_param] leaves in [self._cfg] and the exception its walk
    raises, if any. *)
Definition set_outcome (cfg : Value) (param_name : string) (value : Value)
    : Value * option exn :=
  Settings.set_walk (split_slash (dirname param_name))
    (Settings.set_leaf param_name (basename param_name) value) cfg.

(** The merge keeps an item: every value but a mapping that fails the
    writability test. *)
Definition kept_by_merge (value : Value) : bool :=
  match value with
  | VDict d => truthy (_is_writable d)
  | _ => true
  end.

(** The attributes of the object [__init__] sets out with. *)
Definition fresh `{env : Environment} (file_name version_string : string)
    : settings :=
  {| version := version_string;
     filename := if String.eqb file_name "" then default_filename else file_name;
     _cfg := VNone;
     _reload_callbacks := [] |}.

(** [__init__] from its call of [reload] on. *)
Definition init_load `{env : Environment} (st : state Text)
    : (exn + unit) * state Text :=
  match Settings.reload st with
  | (inr _, st') =>
      (inr tt,
       match param_lookup (_cfg (self st')) "global/grpc_timeout" true with
       | inr _ => st'
       | inl exc => with_events [Printed exc] st'
       end)
  | (inl exc, st') => (inl exc, st')
  end.

(** * Properties *)

(** ** Paths and lookups on sample inputs *)

Example split_slash_path : split_slash "global/reset" = ["global"; "reset"].
Proof. reflexivity. Qed.

Example split_slash_empty : split_slash "" = [""].
Proof. reflexivity. Qed.

Example dirname_basename_path :
  dirname "global/version" = "global" ∧ basename "global/version" = "version".
Proof. split; reflexivity. Qed.

Example dirname_basename_plain : dirname "reset" = "" ∧ basename "reset" = "reset".
Proof. split; reflexivity. Qed.

Example dirname_basename_slashes :
  dirname "/a" = "/" ∧ dirname "a//b/c" = "a//b" ∧
  dirname "a/b//" = "a/b" ∧ basename "a/b//" = "".
Proof. repeat split; reflexivity. Qed.

Lemma rsplit_slash_whole p :
  fst (rsplit_slash p) +:+ snd (rsplit_slash p) = p.
Proof.
  induction p as [|c r IH]; simpl; [done|].
  destruct (rsplit_slash r) as [h t]. simpl in IH.
  destruct h as [|c' h'].
  - simpl in IH. subst. by destruct (is_slash c).
  - by rewrite <- IH.
Qed.

(** Scenario A of the specification: the built-in tree answers
    [param('global/grpc_timeout', 0)] with [15.0]. *)
Example param_grpc_timeout :
  param_value sample_default "global/grpc_timeout" (VInt 0) true = VFloat 15.0.
Proof. vm_compute. reflexivity. Qed.

(** Scenario B: after [set_param('global/grpc_timeout', 20.0)] the tree and
    the file both answer [20.0]. *)
Example set_param_grpc_timeout :
  let st := snd (@Settings.set_param reference "global/grpc_timeout" (VFloat 20.0)
                   (sample_state sample_default [] None true)) in
  param_value (_cfg (self st)) "global/grpc_timeout" (VInt 0) true = VFloat 20.0 ∧
  content (disk st) = Some (Some (_cfg (self st))).
Proof. split; vm_compute; reflexivity. Qed.

(** ** The merge, key by key *)

Lemma apply_item_insert recurse new_data key value (acc : gmap string Value) :
  apply_item recurse new_data key value acc =
  match apply_item recurse new_data key value ∅ !! key with
  | Some r => <[key := r]> acc
  | None => acc
  end.
Proof.
  unfold apply_item.
  repeat (case_match; rewrite ?lookup_insert_eq, ?lookup_empty; try done).
Qed.

Lemma fold_apply_item_lookup recurse new_data (items : gmap string Value) key :
  map_fold (apply_item recurse new_data) ∅ items !! key =
  items !! key ≫= λ value, apply_item recurse new_data key value ∅ !! key.
Proof.
  revert key.
  apply (map_fold_weak_ind
    (λ r m, ∀ key, r !! key =
       m !! key ≫= λ value, apply_item recurse new_data key value ∅ !! key)).
  - intros key. by rewrite !lookup_empty.
  - intros i x m r Hi IH key.
    rewrite apply_item_insert.
    destruct (decide (i = key)) as [->|Hne].
    + rewrite lookup_insert_eq. simpl.
      destruct (apply_item recurse new_data key x ∅ !! key) eqn:E.
      * by rewrite lookup_insert_eq.
      * by rewrite IH, Hi.
    + rewrite lookup_insert_ne by done.
      destruct (apply_item recurse new_data i x ∅ !! i).
      * rewrite lookup_insert_ne by done. apply IH.
      * apply IH.
Qed.

(** The result of a merge into a mapping, looked up at one key. *)
Lemma _apply_recursive_dict new_data (items : gmap string Value) :
  ∃ merged : gmap string Value,
    _apply_recursive new_data (VDict items) = inr (VDict merged) ∧
    ∀ key, merged !! key = items !! key ≫= item_result new_data key.
Proof.
  eexists. split; [reflexivity|].
  intros key. apply fold_apply_item_lookup.
Qed.

Lemma _apply_recursive_lookup new_data (items merged : gmap string Value) key :
  _apply_recursive new_data (VDict items) = inr (VDict merged) →
  merged !! key = items !! key ≫= item_result new_data key.
Proof.
  simpl. intros [= <-]. apply fold_apply_item_lookup.
Qed.

Lemma _apply_recursive_not_dict new_data curr_value :
  is_dict curr_value = false →
  _apply_recursive new_data curr_value = inl AttributeError.
Proof. by destruct curr_value. Qed.

(** The cases of one item. *)

Lemma item_result_readonly_dict new_data key (d : gmap string Value) :
  truthy (_is_writable d) = false →
  item_result new_data key (VDict d) = None.
Proof.
  intros H. unfold item_result, apply_item. rewrite H. apply lookup_empty.
Qed.

Lemma item_result_dict_recurse new_data key (d : gmap string Value) sub :
  truthy (_is_writable d) = true →
  getitem new_data key = inr sub →
  ∃ merged, _apply_recursive sub (VDict d) = inr merged ∧
            item_result new_data key (VDict d) = Some merged.
Proof.
  intros Hw Hsub. unfold item_result, apply_item. rewrite Hw, Hsub.
  destruct (_apply_recursive_dict sub d) as (m & Hm & _).
  exists (VDict m). split; [done|].
  rewrite Hm. apply lookup_insert_eq.
Qed.

Lemma item_result_dict_fallback new_data key (d : gmap string Value) exc :
  truthy (_is_writable d) = true →
  getitem new_data key = inl exc →
  item_result new_data key (VDict d) = Some (VDict d).
Proof.
  intros Hw Hsub. unfold item_result, apply_item. rewrite Hw, Hsub.
  apply lookup_insert_eq.
Qed.

Lemma item_result_marker new_data key value :
  is_dict value = false → key ∈ marker_keys →
  item_result new_data key value = Some value.
Proof.
  intros Hd Hk. unfold item_result, apply_item.
  rewrite bool_decide_eq_false_2 by (intros ?; done).
  destruct value; try done; apply lookup_insert_eq.
Qed.

Lemma item_result_leaf_found (nd : gmap string Value) key value x :
  is_dict value = false → key ∉ marker_keys → nd !! key = Some x →
  item_result (VDict nd) key value = Some x.
Proof.
  intros Hd Hk Hx. unfold item_result, apply_item.
  rewrite bool_decide_eq_true_2, Hx by done.
  destruct value; try done; apply lookup_insert_eq.
Qed.

Lemma item_result_leaf_missing (nd : gmap string Value) key value :
  is_dict value = false → key ∉ marker_keys → nd !! key = None →
  item_result (VDict nd) key value = Some value.
Proof.
  intros Hd Hk Hx. unfold item_result, apply_item.
  rewrite bool_decide_eq_true_2, Hx by done.
  destruct value; try done; apply lookup_insert_eq.
Qed.

Lemma item_result_leaf_scalar new_data key value :
  is_dict value = false → key ∉ marker_keys → is_dict new_data = false →
  item_result new_data key value = Some new_data.
Proof.
  intros Hd Hk Hn. unfold item_result, apply_item.
  rewrite bool_decide_eq_true_2 by done.
  destruct value; try done; destruct new_data; try done; apply lookup_insert_eq.
Qed.

(** A key the incoming mapping lacks: the old value stays, unless it is a
    mapping that fails the writability test. *)
Lemma item_result_missing (nd : gmap string Value) key value :
  nd !! key = None → kept_by_merge value = true →
  item_result (VDict nd) key value = Some value.
Proof.
  intros Hn Hkept.
  destruct (is_dict value) eqn:Hd.
  - destruct value as [| | | | | |d]; try done.
    apply (item_result_dict_fallback _ _ _ (KeyError key)); [done|].
    simpl. by rewrite Hn.
  - destruct (decide (key ∈ marker_keys)).
    + by apply item_result_marker.
    + by apply item_result_leaf_missing.
Qed.

(** ** Induction on trees *)

Lemma height_child (d : gmap string Value) key child :
  d !! key = Some child → height child < height (VDict d).
Proof.
  intros H. simpl.
  rewrite (map_fold_delete_L _ _ key child d); [lia| |done].
  intros; lia.
Qed.

Lemma Value_tree_ind (P : Value → Prop) :
  (∀ v, (∀ d key child, v = VDict d → d !! key = Some child → P child) → P v) →
  ∀ v, P v.
Proof.
  intros step v.
  remember (height v) as n eqn:Hn.
  revert v Hn. induction n as [n IH] using lt_wf_ind.
  intros v ->. apply step. intros d key child -> Hc.
  eapply IH; [|reflexivity]. by eapply height_child.
Qed.

Lemma fold_andb_true {A} (f : A → bool) (m : gmap string A) :
  map_fold (λ _ x ok, ok && f x) true m = true →
  ∀ key x, m !! key = Some x → f x = true.
Proof.
  apply (map_fold_weak_ind
    (λ r m, r = true → ∀ key x, m !! key = Some x → f x = true)).
  - intros _ key x. by rewrite lookup_empty.
  - intros i x m0 r Hi IH Hr key y.
    apply andb_true_iff in Hr as [Hr Hx].
    destruct (decide (i = key)) as [->|Hne].
    + rewrite lookup_insert_eq. by intros [= <-].
    + rewrite lookup_insert_ne by done. by apply IH.
Qed.

Lemma groups_writable_child (d c : gmap string Value) key :
  groups_writable (VDict d) = true → d !! key = Some (VDict c) →
  truthy (_is_writable c) = true ∧ groups_writable (VDict c) = true.
Proof.
  intros H Hc. simpl in H.
  pose proof (fold_andb_true _ _ H key (VDict c) Hc) as Hk.
  by apply andb_true_iff in Hk.
Qed.

(** ** Where the keys of a merge result come from *)

Lemma item_result_dict_inv new_data key (d : gmap string Value) r :
  item_result new_data key (VDict d) = Some r →
  truthy (_is_writable d) = true ∧
  (r = VDict d ∨
   ∃ sub, getitem new_data key = inr sub ∧
          _apply_recursive sub (VDict d) = inr r).
Proof.
  intros H.
  destruct (truthy (_is_writable d)) eqn:Hw.
  2:{ by rewrite item_result_readonly_dict in H. }
  split; [done|].
  destruct (getitem new_data key) as [exc|sub] eqn:Hsub.
  - rewrite (item_result_dict_fallback _ _ _ exc) in H by done.
    left. congruence.
  - destruct (item_result_dict_recurse _ _ _ _ Hw Hsub) as (m & Hm & Hr).
    right. exists sub. split; [done|]. congruence.
Qed.

Lemma walk_not_dict path v (d : gmap string Value) :
  is_dict v = false → walk path v = inr (VDict d) → False.
Proof.
  intros Hv. destruct path as [|item rest]; simpl.
  - intros [= ->]. done.
  - by destruct v.
Qed.

Lemma keys_come_from_current_tree path :
  ∀ new_data curr_value merged (d dm : gmap string Value) key,
    _apply_recursive new_data curr_value = inr merged →
    walk path curr_value = inr (VDict d) →
    walk path merged = inr (VDict dm) →
    is_Some (dm !! key) → is_Some (d !! key).
Proof.
  induction path as [|item rest IH]; intros new_data curr merged d dm key.
  - simpl. intros Hm [= ->] [= ->] [x Hx].
    rewrite (_apply_recursive_lookup _ _ _ _ Hm) in Hx.
    destruct (d !! key); [by eexists|done].
  - intros Hm Hc Hr Hkey.
    destruct curr as [| | | | | |items]; try done.
    destruct (_apply_recursive_dict new_data items) as (mi & Hmi & Hlook).
    rewrite Hmi in Hm. injection Hm as <-.
    simpl in Hc, Hr.
    destruct (items !! item) as [c|] eqn:Hitem; [|done].
    destruct (mi !! item) as [mc|] eqn:Hmitem; [|done].
    rewrite Hlook, Hitem in Hmitem. simpl in Hmitem.
    destruct (is_dict c) eqn:Hdc.
    + destruct c as [| | | | | |cd]; try done.
      apply item_result_dict_inv in Hmitem as [_ [->|(sub & _ & Hsub)]].
      * rewrite Hc in Hr. injection Hr as <-. done.
      * by eapply (IH sub (VDict cd) mc).
    + exfalso. by eapply walk_not_dict.
Qed.


(** ** Runs of the methods *)

Section Runs.

Context {env : Environment}.
Implicit Types st : state Text.

Lemma with_events_nil st : with_events [] st = st.
Proof. destruct st. unfold with_events. simpl. by rewrite app_nil_r. Qed.

Lemma with_events_app evs1 evs2 st :
  with_events evs2 (with_events evs1 st) = with_events (evs1 ++ evs2) st.
Proof. unfold with_events. simpl. by rewrite app_assoc. Qed.

Lemma with_cfg_events cfg evs st :
  with_cfg cfg (with_events evs st) = with_events evs (with_cfg cfg st).
Proof. done. Qed.

Lemma with_cfg_same st : with_cfg (_cfg (self st)) st = st.
Proof. by destruct st as [[] ? ?]. Qed.

Lemma with_content_twice (t1 t2 : Text) st :
  with_content t2 (with_content t1 st) = with_content t2 st.
Proof. done. Qed.

Lemma calls_app tr1 tr2 : calls (tr1 ++ tr2) = calls tr1 ++ calls tr2.
Proof. unfold calls. apply omap_app. Qed.

Lemma calls_called cfg (cbs : list callback) :
  calls (map (λ cb, Called cb cfg) cbs) = map (λ cb, (cb, cfg)) cbs.
Proof. induction cbs as [|cb cbs IH]; simpl; [done|]. by rewrite <- IH. Qed.

Lemma for_each_call_run cbs st :
  Settings.for_each Settings.call cbs st =
  (inr tt, with_events (map (λ cb, Called cb (_cfg (self st))) cbs) st).
Proof.
  revert st. induction cbs as [|cb cbs IH]; intros st; simpl.
  - unfold_run. by rewrite with_events_nil.
  - unfold Settings.bind at 1. unfold_run. simpl.
    rewrite IH. simpl. by rewrite with_events_app.
Qed.

(** Every listener is called once, in the order of the list, with the
    tree of the moment. *)
Lemma notify_run st :
  Settings._notify_reload_callbacks st =
  (inr tt,
   with_events (map (λ cb, Called cb (_cfg (self st)))
                  (_reload_callbacks (self st))) st).
Proof.
  unfold Settings._notify_reload_callbacks. unfold Settings.bind, Settings.get_self.
  apply for_each_call_run.
Qed.

(** The runs of [save]. *)

Lemma save_unwritable st :
  writable (disk st) = false → Settings.save st = (inl IOError, st).
Proof. intros H. unfold Settings.save. unfold_run. by rewrite H. Qed.

Lemma save_written st text :
  writable (disk st) = true → room (disk st) = true →
  yaml_dump (_cfg (self st)) = inr text →
  Settings.save st =
  (inr tt, with_events [Logged (ConfigurationSaved (filename (self st)))]
             (with_content text st)).
Proof.
  intros Hw Hr Hd. unfold Settings.save. unfold_run. simpl.
  by rewrite Hw, Hd; simpl; rewrite Hr.
Qed.



Lemma save_self st : self (snd (Settings.save st)) = self st.
Proof.
  unfold Settings.save. unfold_run. simpl.
  destruct (writable (disk st)); [|done].
  destruct (yaml_dump (_cfg (self st))) as [[]|text]; simpl; try done.
  by destruct (room (disk st)).
Qed.

Lemma save_calls st :
  calls (trace (snd (Settings.save st))) = calls (trace st).
Proof.
  unfold Settings.save. unfold_run. simpl.
  destruct (writable (disk st)); [|done].
  destruct (yaml_dump (_cfg (self st))) as [[]|text]; simpl; try done.
  - by rewrite calls_app, app_nil_r.
  - destruct (room (disk st)); simpl; by rewrite calls_app, app_nil_r.
Qed.

(** [save] and then the notification. *)
Lemma save_then_notify st :
  (Settings.bind Settings.save (λ _, Settings._notify_reload_callbacks)) st =
  match Settings.save st with
  | (inr _, st') =>
      (inr tt,
       with_events (map (λ cb, Called cb (_cfg (self st)))
                      (_reload_callbacks (self st))) st')
  | (inl exc, st') => (inl exc, st')
  end.
Proof.
  unfold Settings.bind at 1.
  pose proof (save_self st) as Hs.
  destruct (Settings.save st) as [[exc|[]] st']; [done|].
  simpl in Hs. by rewrite notify_run, Hs.
Qed.

Lemma apply_run st data new_data merged :
  yaml_load data = inr new_data →
  _apply_recursive new_data (_cfg (self st)) = inr merged →
  Settings.apply data st =
  Settings.bind Settings.save (λ _, Settings._notify_reload_callbacks)
    (applied st merged).
Proof.
  intros Hl Hm. unfold Settings.apply, Settings.param, applied, param_value.
  unfold_run. rewrite Hl, Hm. simpl.
  destruct (param_lookup merged "global/reset" true) as [exc|v]; simpl.
  - done.
  - by destruct (truthy v).
Qed.

Lemma apply_load_error st data exc :
  yaml_load data = inl exc → Settings.apply data st = (inl exc, st).
Proof.
  intros Hl. unfold Settings.apply. unfold_run. by rewrite Hl.
Qed.

Lemma apply_not_dict st data new_data :
  yaml_load data = inr new_data → is_dict (_cfg (self st)) = false →
  Settings.apply data st = (inl AttributeError, st).
Proof.
  intros Hl Hd. unfold Settings.apply. unfold_run. rewrite Hl.
  by rewrite _apply_recursive_not_dict.
Qed.

(** The tree [apply] leaves, whatever [save] then does. *)
Lemma apply_cfg st data new_data merged :
  yaml_load data = inr new_data →
  _apply_recursive new_data (_cfg (self st)) = inr merged →
  _cfg (self (snd (Settings.apply data st))) =
  if truthy (param_value merged "global/reset" (VBool false) true)
  then Settings.default (self st) else merged.
Proof.
  intros Hl Hm. rewrite (apply_run _ _ _ _ Hl Hm), save_then_notify.
  pose proof (save_self (applied st merged)) as Hs.
  destruct (Settings.save (applied st merged)) as [[exc|[]] st']; simpl in *;
    rewrite Hs; unfold applied;
    destruct (truthy (param_value merged "global/reset" (VBool false) true));
    simpl; by destruct (param_lookup merged "global/reset" true).
Qed.

End Runs.

(** ** The built-in tree *)

Lemma default_reset_false `{env : Environment} (s : settings) :
  param_value (Settings.default s) "global/reset" (VBool true) true = VBool false.
Proof. vm_compute. reflexivity. Qed.

Lemma default_merge_timeout `{env : Environment} (s : settings) x :
  is_dict x = false →
  _apply_recursive (timeout_payload x) (Settings.default s)
  = inr (alter_at ["global"; "grpc_timeout"; ":value"] (λ _, x)
           (Settings.default s)).
Proof.
  intros Hx. destruct x; try done; vm_compute; reflexivity.
Qed.

Lemma default_timeout_no_reset `{env : Environment} (s : settings) x :
  truthy (param_value
            (alter_at ["global"; "grpc_timeout"; ":value"] (λ _, x)
               (Settings.default s))
            "global/reset" (VBool false) true) = false.
Proof. vm_compute. reflexivity. Qed.

(** ** The merge of a tree into itself *)

Lemma merge_into_itself v :
  is_dict v = true → groups_writable v = true → _apply_recursive v v = inr v.
Proof.
  induction v as [v IH] using Value_tree_ind.
  intros Hd Hw. destruct v as [| | | | | |d]; try done.
  destruct (_apply_recursive_dict (VDict d) d) as (merged & Hm & Hlook).
  rewrite Hm. do 2 f_equal. apply map_eq. intros key.
  rewrite Hlook. destruct (d !! key) as [child|] eqn:Hc; [simpl|done].
  destruct (is_dict child) eqn:Hdc.
  - destruct child as [| | | | | |c]; try done.
    destruct (groups_writable_child _ _ _ Hw Hc) as [Hwc Hgc].
    destruct (item_result_dict_recurse (VDict d) key c (VDict c) Hwc)
      as (m & Hmc & ->).
    { simpl. by rewrite Hc. }
    rewrite (IH d key (VDict c) eq_refl Hc eq_refl Hgc) in Hmc. congruence.
  - destruct (decide (key ∈ marker_keys)).
    + by apply item_result_marker.
    + by apply item_result_leaf_found.
Qed.

(** ** A payload that names one parameter *)

Lemma groups_writable_kept (d : gmap string Value) key child :
  groups_writable (VDict d) = true → d !! key = Some child →
  kept_by_merge child = true.
Proof.
  intros Hw Hc. destruct child as [| | | | | |c]; try done.
  by destruct (groups_writable_child _ _ _ Hw Hc).
Qed.

(** A mapping with the one key [name] as incoming data leaves every other
    key of the current mapping as it is. *)
Lemma merge_single_key name sub (items : gmap string Value) :
  groups_writable (VDict items) = true →
  ∃ merged : gmap string Value,
    _apply_recursive (VDict {[ name := sub ]}) (VDict items) = inr (VDict merged) ∧
    (∀ key, key ≠ name → merged !! key = items !! key) ∧
    merged !! name = items !! name ≫= item_result (VDict {[ name := sub ]}) name.
Proof.
  intros Hw.
  destruct (_apply_recursive_dict (VDict {[ name := sub ]}) items)
    as (merged & Hm & Hlook).
  exists merged. split; [done|]. split; [|apply Hlook].
  intros key Hkey. rewrite Hlook.
  destruct (items !! key) as [value|] eqn:Hk; [simpl|done].
  apply item_result_missing.
  - by apply lookup_singleton_ne.
  - by eapply groups_writable_kept.
Qed.

(** What [param('global/reset', default_value)] reads in a mapping. *)
Lemma param_value_global_reset (m : gmap string Value) default_value :
  param_value (VDict m) "global/reset" default_value true =
  match m !! "global" with
  | Some (VDict g) =>
      match g !! "reset" with
      | Some (VDict r) =>
          match r !! ":value" with Some x => x | None => VDict r end
      | Some v => v
      | None => default_value
      end
  | _ => default_value
  end.
Proof.
  unfold param_value, param_lookup.
  change (split_slash "global/reset") with ["global"; "reset"].
  simpl. destruct (m !! "global") as [[| | | | | |g]|]; try done.
  simpl. destruct (g !! "reset") as [[| | | | | |r]|]; try done.
  by destruct (r !! ":value").
Qed.

(** The merge of the payload [{"global": {"grpc_timeout": x}}] into a tree
    whose mappings all pass the writability test: only what lies under
    [global/grpc_timeout] may differ. *)
Lemma merge_timeout_payload x (d : gmap string Value) :
  groups_writable (VDict d) = true →
  ∃ m : gmap string Value,
    _apply_recursive (timeout_payload x) (VDict d) = inr (VDict m) ∧
    (∀ key, key ≠ "global" → m !! key = d !! key) ∧
    (∀ g : gmap string Value, d !! "global" = Some (VDict g) →
       ∃ g' : gmap string Value,
         m !! "global" = Some (VDict g') ∧
         (∀ key, key ≠ "grpc_timeout" → g' !! key = g !! key) ∧
         g' !! "grpc_timeout" =
           g !! "grpc_timeout"
           ≫= item_result (VDict {[ "grpc_timeout" := x ]}) "grpc_timeout") ∧
    (∀ v, d !! "global" = Some v → is_dict v = false →
       m !! "global" = Some (VDict {[ "grpc_timeout" := x ]})) ∧
    (d !! "global" = None → m !! "global" = None).
Proof.
  intros Hw. unfold timeout_payload.
  destruct (merge_single_key "global" (VDict {[ "grpc_timeout" := x ]}) d Hw)
    as (m & Hm & Hother & Hglobal).
  exists m. split; [done|]. split; [done|]. split; [|split].
  - intros g Hg. rewrite Hglobal, Hg. simpl.
    destruct (groups_writable_child _ _ _ Hw Hg) as [Hwg Hgg].
    destruct (merge_single_key "grpc_timeout" x g Hgg) as (g' & Hm' & Ho' & Ht').
    exists g'. split; [|done].
    destruct (item_result_dict_recurse
                (VDict {[ "global" := VDict {[ "grpc_timeout" := x ]} ]})
                "global" g (VDict {[ "grpc_timeout" := x ]}) Hwg)
      as (r & Hr & ->).
    { simpl. by rewrite lookup_singleton_eq. }
    congruence.
  - intros v Hv Hd. rewrite Hglobal, Hv. simpl.
    apply item_result_leaf_found; [done| |by rewrite lookup_singleton_eq].
    apply (bool_decide_eq_true_1 ("global" ∉ marker_keys)). reflexivity.
  - intros Hnone. by rewrite Hglobal, Hnone.
Qed.

(** That merge does not touch [global/reset]. *)
Lemma merge_timeout_payload_reset x (d m : gmap string Value) :
  groups_writable (VDict d) = true →
  _apply_recursive (timeout_payload x) (VDict d) = inr (VDict m) →
  truthy (param_value (VDict d) "global/reset" (VBool false) true) = false →
  truthy (param_value (VDict m) "global/reset" (VBool false) true) = false.
Proof.
  intros Hw Hm.
  destruct (merge_timeout_payload x d Hw) as (m' & Hm' & _ & Hdict & Hleaf & Hnone).
  assert (m' = m) as -> by congruence.
  rewrite !param_value_global_reset.
  destruct (d !! "global") as [v|] eqn:Hg.
  - destruct (is_dict v) eqn:Hd.
    + destruct v as [| | | | | |g]; try done.
      destruct (Hdict g eq_refl) as (g' & -> & Hother & _).
      by rewrite Hother.
    + rewrite (Hleaf v eq_refl Hd).
      by rewrite lookup_singleton_ne.
  - by rewrite (Hnone eq_refl).
Qed.

(** ** The walk of [set_param] *)

Lemma set_walk_rejected path :
  ∀ cfg_item (g leaf : gmap string Value) param_name pname value,
    descend path cfg_item = Some (VDict g) →
    g !! pname = Some (VDict leaf) →
    truthy (_is_writable leaf) = false →
    Settings.set_walk path (Settings.set_leaf param_name pname value) cfg_item
    = (cfg_item,
       Some (Exception (param_name +:+ " is a read only parameter!"))).
Proof.
  induction path as [|item rest IH];
    intros cfg_item g leaf param_name pname value Hd Hg Hw; simpl in *.
  - injection Hd as ->. unfold Settings.set_leaf. by rewrite Hg, Hw.
  - destruct (String.eqb item ""); [by eapply IH|].
    destruct cfg_item as [| | | | | |d]; try done.
    destruct (d !! item) as [child|] eqn:Hchild; [simpl in Hd|done].
    rewrite (IH child g leaf) by done.
    by rewrite insert_id.
Qed.

(** On a mapping that passes the writability test, the walk raises nothing
    and replaces [:value] in it. *)
Lemma set_walk_accepted path :
  ∀ cfg_item (g leaf : gmap string Value) param_name pname value,
    descend path cfg_item = Some (VDict g) →
    g !! pname = Some (VDict leaf) →
    truthy (_is_writable leaf) = true →
    ∃ cfg',
      Settings.set_walk path (Settings.set_leaf param_name pname value) cfg_item
      = (cfg', None) ∧
      descend path cfg'
      = Some (VDict (<[pname := VDict (<[":value" := value]> leaf)]> g)).
Proof.
  induction path as [|item rest IH];
    intros cfg_item g leaf param_name pname value Hd Hg Hw; simpl in *.
  - injection Hd as ->. unfold Settings.set_leaf. rewrite Hg, Hw.
    by eexists.
  - destruct (String.eqb item "") eqn:He; [by eapply IH|].
    destruct cfg_item as [| | | | | |d]; try done.
    destruct (d !! item) as [child|] eqn:Hchild; [simpl in Hd|done].
    destruct (IH child g leaf param_name pname value Hd Hg Hw) as (c' & -> & Hc).
    eexists. split; [done|].
    cbn [descend]. by rewrite ?He, lookup_insert_eq.
Qed.

(** [set_param] never raises: whatever its body raises, [save] included, is
    printed. *)
Lemma set_param_returns `{env : Environment} (st : state Text) param_name value :
  fst (Settings.set_param param_name value st) = inr tt.
Proof.
  unfold Settings.set_param. unfold_run.
  destruct (Settings.set_walk _ _ _) as [cfg [exc|]]; simpl; [done|].
  by destruct (Settings.save (with_cfg cfg st)) as [[exc|[]] st'].
Qed.

(** The run of [set_param]. *)
Lemma set_param_run `{env : Environment} (st : state Text) param_name value :
  Settings.set_param param_name value st =
  match set_outcome (_cfg (self st)) param_name value with
  | (cfg, Some exc) => (inr tt, with_events [Printed exc] (with_cfg cfg st))
  | (cfg, None) =>
      match Settings.save (with_cfg cfg st) with
      | (inr _, st') => (inr tt, st')
      | (inl exc, st') => (inr tt, with_events [Printed exc] st')
      end
  end.
Proof.
  unfold Settings.set_param, set_outcome. unfold_run.
  destruct (Settings.set_walk _ _ _) as [cfg [exc|]]; simpl; [done|].
  by destruct (Settings.save (with_cfg cfg st)) as [[exc|[]] st'].
Qed.

Lemma set_param_cfg `{env : Environment} (st : state Text) param_name value :
  _cfg (self (snd (Settings.set_param param_name value st)))
  = (set_outcome (_cfg (self st)) param_name value).1.
Proof.
  rewrite set_param_run.
  destruct (set_outcome _ _ _) as [cfg [exc|]]; simpl; [done|].
  pose proof (save_self (with_cfg cfg st)) as Hs.
  destruct (Settings.save (with_cfg cfg st)) as [[exc|[]] st']; simpl in *;
    by rewrite Hs.
Qed.

(** ** Runs of [reload] and [add_reload_listener] *)

Section Reload.

Context {env : Environment}.
Implicit Types st : state Text.

Lemma reload_loaded st v :
  load_file st = inr v →
  Settings.reload st =
  (inr tt,
   with_events (Logged (LoadedConfiguration (filename (self st)))
                :: map (λ cb, Called cb v) (_reload_callbacks (self st)))
     (with_cfg v st)).
Proof.
  unfold load_file. intros Hl.
  unfold Settings.reload. unfold Settings.bind at 1. unfold Settings.get_self at 1.
  unfold Settings.bind at 1. unfold_run.
  destruct (content (disk st)) as [text|]; [|done].
  destruct (readable (disk st)); [|done].
  rewrite Hl. simpl. rewrite notify_run. simpl.
  by rewrite with_cfg_events, with_events_app.
Qed.

Lemma reload_default st exc :
  load_file st = inl exc → handled_by_reload exc = true →
  Settings.reload st =
  (inr tt,
   with_events (Logged (UseDefaultConfiguration exc)
                :: map (λ cb, Called cb (Settings.default (self st)))
                     (_reload_callbacks (self st)))
     (with_cfg (Settings.default (self st)) st)).
Proof.
  unfold load_file. intros Hl Hh.
  unfold Settings.reload. unfold Settings.bind at 1. unfold Settings.get_self at 1.
  unfold Settings.bind at 1. unfold_run.
  destruct (content (disk st)) as [text|].
  - destruct (readable (disk st)).
    + rewrite Hl. destruct exc; try done; simpl; rewrite notify_run; simpl;
        by rewrite with_cfg_events, with_events_app.
    + injection Hl as <-. simpl. rewrite notify_run. simpl.
      by rewrite with_cfg_events, with_events_app.
  - injection Hl as <-. simpl. rewrite notify_run. simpl.
    by rewrite with_cfg_events, with_events_app.
Qed.

Lemma reload_raises st exc :
  load_file st = inl exc → handled_by_reload exc = false →
  Settings.reload st = (inl exc, st).
Proof.
  unfold load_file. intros Hl Hh.
  unfold Settings.reload. unfold Settings.bind at 1. unfold Settings.get_self at 1.
  unfold Settings.bind at 1. unfold_run.
  destruct (content (disk st)) as [text|].
  - destruct (readable (disk st)).
    + rewrite Hl. by destruct exc.
    + by injection Hl as <-.
  - by injection Hl as <-.
Qed.

Lemma add_new_listener st cb call_now :
  cb ∉ _reload_callbacks (self st) →
  Settings.add_reload_listener cb call_now st =
  (inr tt,
   if call_now
   then with_events [Called cb (_cfg (self st))] (with_callback cb st)
   else with_callback cb st).
Proof.
  intros Hcb. unfold Settings.add_reload_listener. unfold_run.
  rewrite bool_decide_eq_true_2 by done. by destruct call_now.
Qed.

Lemma add_known_listener st cb call_now :
  cb ∈ _reload_callbacks (self st) →
  Settings.add_reload_listener cb call_now st = (inr tt, st).
Proof.
  intros Hcb. unfold Settings.add_reload_listener. unfold_run.
  by rewrite bool_decide_eq_false_2 by (intros ?; done).
Qed.

(** The list of listeners never holds a listener twice. *)
Lemma add_reload_listener_NoDup st cb call_now :
  NoDup (_reload_callbacks (self st)) →
  NoDup (_reload_callbacks (self (snd (Settings.add_reload_listener cb call_now st)))).
Proof.
  intros Hnd.
  destruct (decide (cb ∈ _reload_callbacks (self st))) as [Hin|Hout].
  - by rewrite add_known_listener.
  - rewrite add_new_listener by done.
    assert (NoDup (_reload_callbacks (self st) ++ [cb])).
    { apply NoDup_app. split; [done|]. split; [|apply NoDup_singleton].
      intros x Hx ->%list_elem_of_singleton. done. }
    by destruct call_now.
Qed.

Lemma times_called_absent cfg (cbs : list callback) cb :
  cb ∉ cbs → times_called cb (map (λ c, (c, cfg)) cbs) = 0.
Proof.
  unfold times_called. induction cbs as [|c cbs IH]; intros Hout; [done|].
  apply not_elem_of_cons in Hout as [Hne Hout].
  simpl. rewrite filter_cons. simpl.
  destruct (decide (c = cb)); [congruence|]. by apply IH.
Qed.

Lemma times_called_once cfg (cbs : list callback) cb :
  NoDup cbs → cb ∈ cbs →
  times_called cb (map (λ c, (c, cfg)) cbs) = 1.
Proof.
  induction 1 as [|c cbs Hc Hnd IH]; intros Hin.
  - by apply elem_of_nil in Hin.
  - unfold times_called in *. simpl. rewrite filter_cons. simpl.
    destruct (decide (c = cb)) as [->|Hne]; simpl.
    + f_equal. by apply times_called_absent.
    + apply IH. apply elem_of_cons in Hin as [->|Hin]; done.
Qed.

(** What [apply] and [reload] call when they return. *)

Lemma apply_calls st data :
  fst (Settings.apply data st) = inr tt →
  calls (trace (snd (Settings.apply data st))) =
  calls (trace st) ++
  map (λ cb, (cb, _cfg (self (snd (Settings.apply data st)))))
    (_reload_callbacks (self st)).
Proof.
  intros Hret.
  destruct (yaml_load data) as [exc|new_data] eqn:Hl.
  { by rewrite (apply_load_error _ _ _ Hl) in Hret. }
  destruct (_apply_recursive new_data (_cfg (self st))) as [exc|merged] eqn:Hm.
  { destruct (is_dict (_cfg (self st))) eqn:Hd.
    - destruct (_cfg (self st)); done.
    - by rewrite (apply_not_dict _ _ _ Hl Hd) in Hret. }
  rewrite (apply_run _ _ _ _ Hl Hm), save_then_notify in Hret |- *.
  pose proof (save_calls (applied st merged)) as Hc.
  pose proof (save_self (applied st merged)) as Hs.
  destruct (Settings.save (applied st merged)) as [[exc|[]] st']; [done|].
  simpl in *. rewrite calls_app, calls_called, Hc, Hs.
  assert (calls (trace (applied st merged)) = calls (trace st)) as ->.
  { unfold applied. repeat case_match; simpl;
      rewrite ?calls_app; simpl; by rewrite ?app_nil_r. }
  assert (_reload_callbacks (self (applied st merged))
          = _reload_callbacks (self st)) as ->.
  { unfold applied. by repeat case_match. }
  done.
Qed.

Lemma reload_calls st :
  fst (Settings.reload st) = inr tt →
  calls (trace (snd (Settings.reload st))) =
  calls (trace st) ++
  map (λ cb, (cb, _cfg (self (snd (Settings.reload st)))))
    (_reload_callbacks (self st)).
Proof.
  intros Hret.
  destruct (load_file st) as [exc|v] eqn:Hl.
  - destruct (handled_by_reload exc) eqn:Hh.
    + rewrite (reload_default _ _ Hl Hh). simpl.
      by rewrite calls_app; simpl; rewrite calls_called.
    + by rewrite (reload_raises _ _ Hl Hh) in Hret.
  - rewrite (reload_loaded _ _ Hl). simpl.
    by rewrite calls_app; simpl; rewrite calls_called.
Qed.

(** When [apply] and [reload] return. *)

Lemma apply_returns st data new_data merged text :
  yaml_load data = inr new_data →
  _apply_recursive new_data (_cfg (self st)) = inr merged →
  writable (disk st) = true → room (disk st) = true →
  yaml_dump (if truthy (param_value merged "global/reset" (VBool false) true)
             then Settings.default (self st) else merged) = inr text →
  fst (Settings.apply data st) = inr tt.
Proof.
  intros Hl Hm Hw Hr Hd.
  rewrite (apply_run _ _ _ _ Hl Hm), save_then_notify.
  rewrite (save_written (applied st merged) text); [done| | |].
  - unfold applied. by repeat case_match.
  - unfold applied. by repeat case_match.
  - revert Hd. unfold applied.
    destruct (truthy (param_value merged "global/reset" (VBool false) true));
      by destruct (param_lookup merged "global/reset" true).
Qed.

Lemma reload_returns st :
  match load_file st with
  | inl exc => handled_by_reload exc = true
  | inr _ => True
  end →
  fst (Settings.reload st) = inr tt.
Proof.
  destruct (load_file st) as [exc|v] eqn:Hl; intros Hh.
  - by rewrite (reload_default _ _ Hl Hh).
  - by rewrite (reload_loaded _ _ Hl).
Qed.

End Reload.

(** ** The list of listeners over the life of an object *)

Section Listeners.

Context {env : Environment}.
Implicit Types st : state Text.

Lemma set_param_listeners st param_name value :
  _reload_callbacks (self (snd (Settings.set_param param_name value st)))
  = _reload_callbacks (self st).
Proof.
  unfold Settings.set_param. unfold_run.
  destruct (Settings.set_walk _ _ _) as [cfg [exc|]]; simpl; [done|].
  pose proof (save_self (with_cfg cfg st)) as Hs.
  destruct (Settings.save (with_cfg cfg st)) as [[exc|[]] st']; simpl in *;
    by rewrite Hs.
Qed.

Lemma reload_listeners st :
  _reload_callbacks (self (snd (Settings.reload st)))
  = _reload_callbacks (self st).
Proof.
  destruct (load_file st) as [exc|v] eqn:Hl.
  - destruct (handled_by_reload exc) eqn:Hh.
    + by rewrite (reload_default _ _ Hl Hh).
    + by rewrite (reload_raises _ _ Hl Hh).
  - by rewrite (reload_loaded _ _ Hl).
Qed.

Lemma apply_listeners st data :
  _reload_callbacks (self (snd (Settings.apply data st)))
  = _reload_callbacks (self st).
Proof.
  destruct (yaml_load data) as [exc|new_data] eqn:Hl.
  { by rewrite (apply_load_error _ _ _ Hl). }
  destruct (_apply_recursive new_data (_cfg (self st))) as [exc|merged] eqn:Hm.
  { destruct (is_dict (_cfg (self st))) eqn:Hd.
    - destruct (_cfg (self st)); done.
    - by rewrite (apply_not_dict _ _ _ Hl Hd). }
  rewrite (apply_run _ _ _ _ Hl Hm), save_then_notify.
  pose proof (save_self (applied st merged)) as Hs.
  destruct (Settings.save (applied st merged)) as [[exc|[]] st']; simpl in *;
    rewrite Hs; unfold applied; by repeat case_match.
Qed.

(** No listener is ever held twice: the list starts empty and only
    [add_reload_listener] extends it. *)
Lemma listeners_NoDup st (rs : list request) :
  NoDup (_reload_callbacks (self st)) →
  NoDup (_reload_callbacks (self (serve_all st rs))).
Proof.
  unfold serve_all. revert st.
  induction rs as [|r rs IH]; intros st Hnd; [done|].
  simpl. apply IH. destruct r; simpl.
  - by rewrite set_param_listeners.
  - by rewrite reload_listeners.
  - by rewrite save_self.
  - by rewrite apply_listeners.
  - by apply add_reload_listener_NoDup.
Qed.

(** A registered listener stays registered. *)
Lemma listeners_kept st (rs : list request) cb :
  cb ∈ _reload_callbacks (self st) →
  cb ∈ _reload_callbacks (self (serve_all st rs)).
Proof.
  unfold serve_all. revert st.
  induction rs as [|r rs IH]; intros st Hin; [done|].
  simpl. apply IH. destruct r as [? ?| | |?|other call_now]; simpl.
  - by rewrite set_param_listeners.
  - by rewrite reload_listeners.
  - by rewrite save_self.
  - by rewrite apply_listeners.
  - destruct (decide (other ∈ _reload_callbacks (self st))) as [Hin0|Hout0].
    + by rewrite add_known_listener.
    + rewrite add_new_listener by done.
      destruct call_now; simpl; apply elem_of_app; by left.
Qed.

(** The run of [__init__]: the directory of the file is there, or is
    created, or [os.makedirs] raises before anything is read. *)
Lemma init_run st file_name version_string :
  let st0 := {| self := fresh file_name version_string;
                disk := disk st; trace := trace st |} in
  let cfg_path := dirname (filename (fresh file_name version_string)) in
  Settings.__init__ file_name version_string st =
  if String.eqb cfg_path "" then (inl OSError, st0)
  else if directory (disk st) then init_load st0
  else if creatable (disk st) then init_load (with_directory st0)
  else (inl OSError, st0).
Proof.
  intros st0 cfg_path.
  unfold Settings.__init__, Settings.param, init_load. cbv zeta.
  unfold Settings.bind at 1. cbv beta iota. fold (fresh file_name version_string).
  fold st0. unfold fresh in cfg_path. cbn [filename] in cfg_path. fold cfg_path.
  unfold Settings.bind at 1. unfold Settings.isdir at 1. cbv beta iota.
  change (disk st0) with (disk st).
  destruct (String.eqb cfg_path "") eqn:Hpath; cbn [negb andb].
  { unfold Settings.bind, Settings.makedirs. by rewrite Hpath. }
  destruct (directory (disk st)); cbn [negb andb].
  - unfold Settings.bind at 1. unfold Settings.ret at 1. cbv beta iota.
    unfold Settings.bind at 1.
    destruct (Settings.reload st0) as [[exc|[]] st']; [done|].
    unfold_run. by destruct (param_lookup _ _ _).
  - unfold Settings.bind at 1. unfold Settings.makedirs at 1.
    change (disk st0) with (disk st). rewrite Hpath. cbn [negb andb].
    destruct (creatable (disk st)); [|done].
    unfold Settings.bind at 1.
    destruct (Settings.reload (with_directory st0)) as [[exc|[]] st']; [done|].
    unfold_run. by destruct (param_lookup _ _ _).
Qed.

Lemma init_load_listeners st :
  _reload_callbacks (self (snd (init_load st))) = _reload_callbacks (self st).
Proof.
  unfold init_load. pose proof (reload_listeners st) as Hr.
  destruct (Settings.reload st) as [[exc|[]] st1]; simpl in Hr |- *; [done|].
  by destruct (param_lookup _ _ _).
Qed.

Lemma init_listeners st file_name version_string :
  _reload_callbacks (self (snd (Settings.__init__ file_name version_string st))) = [].
Proof.
  rewrite init_run. cbv zeta.
  repeat case_match; try done; by rewrite init_load_listeners.
Qed.

End Listeners.

(** * The claims *)

(** ** C1: [set_param] on a leaf marked read-only *)

(** C1 (what the code does, against the claim): [_is_writable] answers
    with the [:ro] flag itself.  So when the node a path leads to is a
    leaf whose [:ro] flag is true, [set_param] raises no error: it replaces
    the [:value] of the leaf and goes on to [save], and what it returns and
    leaves behind is what [save] does with the new tree.  The error
    "<path> is a read only parameter!" is raised for the leaves whose [:ro]
    flag is false, which are left unchanged; it is printed by [set_param]
    itself and not raised to the caller. *)
Theorem C1_readonly_leaf_is_overwritten `{env : Environment}
    (st : state Text) param_name value (leaf : gmap string Value) ro :
  node_at (_cfg (self st)) param_name = Some (VDict leaf) →
  leaf !! ":ro" = Some ro →
  if truthy ro
  then ∃ cfg',
         node_at cfg' param_name = Some (VDict (<[":value" := value]> leaf)) ∧
         _cfg (self (snd (Settings.set_param param_name value st))) = cfg' ∧
         Settings.set_param param_name value st =
         match Settings.save (with_cfg cfg' st) with
         | (inr _, st') => (inr tt, st')
         | (inl exc, st') => (inr tt, with_events [Printed exc] st')
         end
  else Settings.set_param param_name value st =
       (inr tt,
        with_events
          [Printed (Exception (param_name +:+ " is a read only parameter!"))] st).
Proof.
  unfold node_at. intros Hnode Hro.
  destruct (descend (split_slash (dirname param_name)) (_cfg (self st)))
    as [[| | | | | |g]|] eqn:Hd; try done.
  assert (_is_writable leaf = ro) as Hflag.
  { unfold _is_writable. by rewrite Hro. }
  destruct (truthy ro) eqn:Hw.
  - destruct (set_walk_accepted _ _ g leaf param_name (basename param_name) value
                Hd Hnode) as (cfg' & Hwalk & Hd').
    { by rewrite Hflag. }
    exists cfg'. split; [|split].
    + unfold node_at. rewrite Hd'. apply lookup_insert_eq.
    + rewrite set_param_cfg. unfold set_outcome. by rewrite Hwalk.
    + rewrite set_param_run. unfold set_outcome. by rewrite Hwalk.
  - rewrite set_param_run. unfold set_outcome.
    rewrite (set_walk_rejected _ _ g leaf) by (by rewrite ?Hflag).
    by rewrite with_cfg_same.
Qed.

Lemma C1_readonly_leaf_is_overwritten_witness :
  let st := sample_state sample_default [] None true in
  let leaf : gmap string Value :=
    {[ ":value" := VStr "/tmp/node_manager_daemon.yaml"; ":ro" := VBool true ]} in
  ∃ cfg',
    node_at cfg' "global/file"
    = Some (VDict (<[":value" := VStr "/tmp/other.yaml"]> leaf)) ∧
    _cfg (self (snd (@Settings.set_param reference "global/file"
                       (VStr "/tmp/other.yaml") st))) = cfg' ∧
    @Settings.set_param reference "global/file" (VStr "/tmp/other.yaml") st =
    match @Settings.save reference (with_cfg cfg' st) with
    | (inr _, st') => (inr tt, st')
    | (inl exc, st') => (inr tt, with_events [Printed exc] st')
    end.
Proof.
  intros st leaf.
  apply (@C1_readonly_leaf_is_overwritten reference st "global/file"
           (VStr "/tmp/other.yaml") leaf (VBool true)).
  - vm_compute. reflexivity.
  - vm_compute. reflexivity.
Defined.

(** ** C2: a leaf marked read-only *)

(** C2 (what the code does, against the claim): in the built-in tree
    [global/version] carries [:ro: True]; [set_param] and [apply] both
    replace its value. *)
Theorem C2_readonly_value_is_replaced :
  let st := sample_state sample_default [] None true in
  let payload := VDict {[ "global" := VDict {[ "version" := VStr "x" ]} ]} in
  param_lookup sample_default "global/version" false
    = inr (VDict {[ ":value" := VStr "1.0.1"; ":ro" := VBool true ]}) ∧
  param_lookup
    (_cfg (self (snd (@Settings.set_param reference "global/version" (VStr "x") st))))
    "global/version" false
    = inr (VDict {[ ":value" := VStr "x"; ":ro" := VBool true ]}) ∧
  param_lookup
    (_cfg (self (snd (@Settings.apply reference (Some payload) st))))
    "global/version" false
    = inr (VDict {[ ":value" := VStr "x"; ":ro" := VBool true ]}).
Proof. repeat split; vm_compute; reflexivity. Qed.

(** ** C3: a mapping that is not writable *)

(** C3 (what the code does, against the claim): when the current mapping
    holds under [key] a mapping that [_is_writable] rejects, the merge
    assigns nothing for [key]: the result has no entry under it, so the
    old group is not kept. *)
Theorem C3_unwritable_group_is_dropped new_data
    (items merged d : gmap string Value) key :
  items !! key = Some (VDict d) →
  truthy (_is_writable d) = false →
  _apply_recursive new_data (VDict items) = inr (VDict merged) →
  merged !! key = None.
Proof.
  intros Hk Hw Hm.
  rewrite (_apply_recursive_lookup _ _ _ _ Hm), Hk. simpl.
  by apply item_result_readonly_dict.
Qed.

Lemma C3_unwritable_group_is_dropped_witness :
  _apply_recursive (VDict ∅)
    (VDict {[ "g" := VDict {[ ":ro" := VBool false; "x" := VInt 1 ]} ]})
  = inr (VDict ∅) ∧
  (∅ : gmap string Value) !! "g" = None.
Proof.
  split; [vm_compute; reflexivity|].
  apply (C3_unwritable_group_is_dropped (VDict ∅)
           {[ "g" := VDict {[ ":ro" := VBool false; "x" := VInt 1 ]} ]}
           ∅ {[ ":ro" := VBool false; "x" := VInt 1 ]} "g");
    vm_compute; reflexivity.
Defined.

(** ** C4: reset *)

(** C4 (what the code does, against the claim): when the [global/reset]
    parameter of the merged tree is true, [apply] leaves the built-in tree
    (whose [reset] is false) as the tree, whatever else the payload holds,
    and runs [save] on it; with a file that takes the write, the file then
    holds the serialization of the built-in tree and every listener is
    called with it, in order.  But with a file that cannot be opened for
    writing, the [IOError] of [save] leaves [apply]: nothing is saved and
    no listener is notified of the tree that was installed. *)
Theorem C4_reset_then_save_raises `{env : Environment} (st : state Text)
    data new_data merged :
  yaml_load data = inr new_data →
  _apply_recursive new_data (_cfg (self st)) = inr merged →
  truthy (param_value merged "global/reset" (VBool false) true) = true →
  let built_in := Settings.default (self st) in
  let notified := map (λ cb, Called cb built_in) (_reload_callbacks (self st)) in
  let reset := with_cfg built_in (with_events [Logged ResetRequested] st) in
  _cfg (self (snd (Settings.apply data st))) = built_in ∧
  param_value built_in "global/reset" (VBool true) true = VBool false ∧
  Settings.apply data st =
    match Settings.save reset with
    | (inr _, st') => (inr tt, with_events notified st')
    | (inl exc, st') => (inl exc, st')
    end ∧
  (∀ text, writable (disk st) = true → room (disk st) = true →
     yaml_dump built_in = inr text →
     Settings.apply data st =
     (inr tt,
      with_events (Logged (ConfigurationSaved (filename (self st))) :: notified)
        (with_content text reset))) ∧
  (writable (disk st) = false →
     Settings.apply data st = (inl IOError, reset) ∧
     disk reset = disk st ∧
     calls (trace reset) = calls (trace st)).
Proof.
  intros Hl Hm Hreset built_in notified reset.
  assert (applied st merged = reset) as Happlied.
  { unfold applied. rewrite Hreset.
    unfold param_value in Hreset.
    destruct (param_lookup merged "global/reset" true); [done|].
    by destruct st as [[] ? ?]. }
  assert (Settings.apply data st =
          match Settings.save reset with
          | (inr _, st') => (inr tt, with_events notified st')
          | (inl exc, st') => (inl exc, st')
          end) as Hrun.
  { by rewrite (apply_run _ _ _ _ Hl Hm), save_then_notify, Happlied. }
  split; [|split; [|split; [|split]]].
  - by rewrite (apply_cfg _ _ _ _ Hl Hm), Hreset.
  - apply default_reset_false.
  - done.
  - intros text Hw Hr Hd. rewrite Hrun.
    rewrite (save_written reset text) by done.
    by rewrite with_events_app.
  - intros Hw. rewrite Hrun, (save_unwritable reset) by done.
    split; [done|]. split; [done|].
    simpl. by rewrite calls_app, app_nil_r.
Qed.

Lemma C4_reset_then_save_raises_witness :
  let tree := VDict {[ "global" := VDict {[ "reset" := VBool false;
                                            "grpc_timeout" := VFloat 15 ]} ]} in
  let payload := VDict {[ "global" := VDict {[ "reset" := VBool true;
                                               "grpc_timeout" := VFloat 99 ]} ]} in
  let st := sample_state tree [3; 5] None false in
  @Settings.apply reference (Some payload) st =
  (inl IOError,
   with_cfg (@Settings.default reference (self st))
     (with_events [Logged ResetRequested] st)) ∧
  disk (with_cfg (@Settings.default reference (self st))
          (with_events [Logged ResetRequested] st)) = disk st ∧
  calls (trace (with_cfg (@Settings.default reference (self st))
                  (with_events [Logged ResetRequested] st)))
  = calls (trace st).
Proof.
  intros tree payload st.
  apply (@C4_reset_then_save_raises reference st (Some payload) payload payload).
  - reflexivity.
  - vm_compute. reflexivity.
  - vm_compute. reflexivity.
  - reflexivity.
Defined.

(** ** C5: the keys of the result *)

(** C5 (as stated, refuted): the current tree holds the scalar [1] under
    [a] and the payload a mapping [{x: 2}]; the payload's key [x] is absent
    from the current tree at that level and present in the merge result. *)
Lemma C5_counterexample :
  let current := VDict {[ "a" := VInt 1 ]} in
  let payload := VDict {[ "a" := VDict {[ "x" := VInt 2 ]} ]} in
  walk ["a"; "x"] payload = inr (VInt 2) ∧
  walk ["a"; "x"] current = inl TypeError ∧
  ∃ merged, _apply_recursive payload current = inr merged ∧
            walk ["a"; "x"] merged = inr (VInt 2).
Proof.
  repeat split; try (vm_compute; reflexivity).
  eexists. split; vm_compute; reflexivity.
Qed.

(** C5 (amended): wherever the current tree and the merge result both hold
    a mapping at the same path, every key of the result's mapping is a key
    of the current one; in particular (empty path) the merge never adds a
    key to the mapping it is run on, and keys of the payload that the
    current mapping lacks are ignored.  Where the current mapping holds a
    value that is no mapping under a key that is no marker, the payload's
    value for that key is installed as it is, whatever its shape. *)
Theorem C5_keys_come_from_current_tree :
  (∀ path new_data curr_value merged (d dm : gmap string Value) key,
     _apply_recursive new_data curr_value = inr merged →
     walk path curr_value = inr (VDict d) →
     walk path merged = inr (VDict dm) →
     is_Some (dm !! key) → is_Some (d !! key)) ∧
  (∀ (nd items : gmap string Value) key value x,
     items !! key = Some value → is_dict value = false →
     key ∉ marker_keys → nd !! key = Some x →
     ∃ merged : gmap string Value,
       _apply_recursive (VDict nd) (VDict items) = inr (VDict merged) ∧
       merged !! key = Some x).
Proof.
  split.
  - intros path. apply keys_come_from_current_tree.
  - intros nd items key value x Hk Hd Hmk Hx.
    destruct (_apply_recursive_dict (VDict nd) items) as (merged & Hm & Hlook).
    exists merged. split; [done|].
    rewrite Hlook, Hk. simpl. by apply item_result_leaf_found.
Qed.

Lemma C5_keys_come_from_current_tree_witness :
  is_Some (({[ "a" := VInt 1; "b" := VInt 2 ]} : gmap string Value) !! "a").
Proof.
  apply (proj1 C5_keys_come_from_current_tree []
           (VDict {[ "a" := VInt 7; "c" := VInt 9 ]})
           (VDict {[ "a" := VInt 1; "b" := VInt 2 ]})
           (VDict {[ "a" := VInt 7; "b" := VInt 2 ]})
           {[ "a" := VInt 1; "b" := VInt 2 ]}
           {[ "a" := VInt 7; "b" := VInt 2 ]} "a").
  - vm_compute; reflexivity.
  - reflexivity.
  - reflexivity.
  - vm_compute. eexists; reflexivity.
Defined.

(** ** C6: a lookup that fails *)

(** C6 (as stated, refuted): reset takes precedence.  On the built-in
    tree, [set_param] stores [0.5] under [sysmon/CPU/load_warn_level] and
    [True] under [global/reset]; the payload that sets only
    [global/grpc_timeout] (to [99.0]) is then applied.  The merged tree
    has kept [reset], so [apply] installs the built-in tree:
    [sysmon/CPU/load_warn_level] does not retain [0.5], and
    [global/grpc_timeout] is [15.0]. *)
Lemma C6_counterexample :
  let st0 := sample_state sample_default [] None true in
  let st1 := snd (@Settings.set_param reference "sysmon/CPU/load_warn_level"
                    (VFloat 0.5) st0) in
  let st2 := snd (@Settings.set_param reference "global/reset" (VBool true) st1) in
  let st3 := snd (@Settings.apply reference
                    (Some (timeout_payload (VFloat 99.0))) st2) in
  param_value (_cfg (self st2)) "sysmon/CPU/load_warn_level" VNone true
    = VFloat 0.5 ∧
  fst (@Settings.apply reference (Some (timeout_payload (VFloat 99.0))) st2)
    = inr tt ∧
  param_value (_cfg (self st3)) "sysmon/CPU/load_warn_level" VNone true
    = VFloat 0.9 ∧
  param_value (_cfg (self st3)) "global/grpc_timeout" VNone true = VFloat 15.0 ∧
  _cfg (self st3) = sample_default.
Proof. repeat split; vm_compute; reflexivity. Qed.

(** C6 (amended): for every item of the current mapping for which the merge
    looks the key up in the incoming data (the value is a mapping that
    passes the writability test, or it is no mapping, stands under a key
    that is no marker, and the incoming data is a mapping) and that lookup
    fails (the key is missing, the incoming data takes no subscript, or
    anything else), the merge returns, its result keeps the old value under
    [key], and every other key is decided by its own item.  For every tree
    whose [global/reset] is not true and whose mappings all pass the
    writability test of the merge, applying a payload that sets only
    [global/grpc_timeout] changes nothing outside [global/grpc_timeout]:
    every entry of the root but [global] and every entry of the group
    [global] but [grpc_timeout] retains its value, and what stands under
    [global/grpc_timeout] is merged with the payload's value.  On the
    built-in tree this replaces [global/grpc_timeout/:value] and nothing
    else. *)
Theorem C6_failed_lookup_keeps_old_value :
  (∀ new_data (items : gmap string Value) key value exc,
     items !! key = Some value →
     lookup_attempted new_data key value = true →
     getitem new_data key = inl exc →
     ∃ merged : gmap string Value,
       _apply_recursive new_data (VDict items) = inr (VDict merged) ∧
       merged !! key = Some value ∧
       (∀ other, merged !! other = items !! other ≫= item_result new_data other)) ∧
  (∀ (env : Environment) (st : state Text) data x (d : gmap string Value),
     _cfg (self st) = VDict d →
     yaml_load data = inr (timeout_payload x) →
     groups_writable (VDict d) = true →
     truthy (param_value (VDict d) "global/reset" (VBool false) true) = false →
     ∃ m : gmap string Value,
       _cfg (self (snd (Settings.apply data st))) = VDict m ∧
       (∀ key, key ≠ "global" → m !! key = d !! key) ∧
       (∀ g : gmap string Value, d !! "global" = Some (VDict g) →
          ∃ g' : gmap string Value,
            m !! "global" = Some (VDict g') ∧
            (∀ key, key ≠ "grpc_timeout" → g' !! key = g !! key) ∧
            g' !! "grpc_timeout" =
              g !! "grpc_timeout"
              ≫= item_result (VDict {[ "grpc_timeout" := x ]}) "grpc_timeout")) ∧
  (∀ (env : Environment) (st : state Text) data x,
     _cfg (self st) = Settings.default (self st) →
     yaml_load data = inr (timeout_payload x) → is_dict x = false →
     _cfg (self (snd (Settings.apply data st)))
     = alter_at ["global"; "grpc_timeout"; ":value"] (λ _, x)
         (Settings.default (self st))).
Proof.
  split; [|split].
  - intros new_data items key value exc Hk Hatt Hget.
    destruct (_apply_recursive_dict new_data items) as (merged & Hm & Hlook).
    exists merged. split; [done|]. split; [|done].
    rewrite Hlook, Hk. simpl.
    destruct (is_dict value) eqn:Hd.
    + destruct value as [| | | | | |d]; try done.
      by eapply item_result_dict_fallback.
    + assert ((key ∉ marker_keys) ∧ is_dict new_data = true) as [Hmk Hnd].
      { destruct value; try done; simpl in Hatt;
          apply andb_true_iff in Hatt as [?%bool_decide_eq_true ?]; done. }
      destruct new_data as [| | | | | |nd]; try done.
      simpl in Hget. destruct (nd !! key) eqn:Hn; [done|].
      by apply item_result_leaf_missing.
  - intros env st data x d Hcfg Hl Hw Hreset.
    destruct (merge_timeout_payload x d Hw) as (m & Hm & Hother & Hglobal & _).
    exists m. split; [|done].
    rewrite (apply_cfg st data (timeout_payload x) (VDict m)); [|done|by rewrite Hcfg].
    by rewrite (merge_timeout_payload_reset x d m).
  - intros env st data x Hcfg Hl Hx.
    rewrite (apply_cfg st data (timeout_payload x)
               (alter_at ["global"; "grpc_timeout"; ":value"] (λ _, x)
                  (Settings.default (self st)))); [|done|].
    + by rewrite default_timeout_no_reset.
    + rewrite Hcfg. by apply default_merge_timeout.
Qed.

Lemma C6_failed_lookup_keeps_old_value_witness :
  let tree : gmap string Value :=
    {[ "global" := VDict {[ "grpc_timeout" := VFloat 15.0; "reset" := VBool false ]};
       "sysmon" := VDict {[ "CPU" := VDict {[ "load_warn_level" := VFloat 0.5 ]} ]} ]} in
  let st := sample_state (VDict tree) [] None true in
  ∃ m : gmap string Value,
    _cfg (self (snd (@Settings.apply reference
                       (Some (timeout_payload (VFloat 99.0))) st))) = VDict m ∧
    m !! "sysmon" = tree !! "sysmon".
Proof.
  intros tree st.
  destruct (proj1 (proj2 C6_failed_lookup_keeps_old_value) reference st
              (Some (timeout_payload (VFloat 99.0))) (VFloat 99.0) tree)
    as (m & Hm & Hother & _).
  - reflexivity.
  - reflexivity.
  - vm_compute. reflexivity.
  - vm_compute. reflexivity.
  - exists m. split; [exact Hm|]. apply Hother. discriminate.
Defined.

(** ** C7: a write that fails *)

(** C7 (what the code does, against the claim): when the file cannot be
    opened for writing, [save] raises [IOError] to its caller, and [apply]
    passes it on without calling any listener.  Only [set_param], which
    handles every exception of its body, returns all the same. *)
Theorem C7_save_raises_IOError `{env : Environment} (st : state Text) :
  writable (disk st) = false →
  Settings.save st = (inl IOError, st) ∧
  (∀ data new_data merged,
     yaml_load data = inr new_data →
     _apply_recursive new_data (_cfg (self st)) = inr merged →
     fst (Settings.apply data st) = inl IOError ∧
     calls (trace (snd (Settings.apply data st))) = calls (trace st)) ∧
  (∀ param_name value, fst (Settings.set_param param_name value st) = inr tt).
Proof.
  intros Hw. split; [by apply save_unwritable|]. split.
  - intros data new_data merged Hl Hm.
    rewrite (apply_run _ _ _ _ Hl Hm), save_then_notify.
    rewrite save_unwritable.
    2:{ unfold applied. by repeat case_match. }
    simpl. split; [done|].
    unfold applied. repeat case_match; simpl;
      rewrite ?calls_app; simpl; by rewrite ?app_nil_r.
  - intros param_name value. apply set_param_returns.
Qed.

Lemma C7_save_raises_IOError_witness :
  @Settings.save reference (sample_state sample_default [1] None false)
  = (inl IOError, sample_state sample_default [1] None false).
Proof.
  apply (@C7_save_raises_IOError reference
           (sample_state sample_default [1] None false)).
  reflexivity.
Defined.

(** ** C8: a tree applied to itself *)

(** C8 (as stated, refuted): a tree whose [global/reset] is true, applied
    to itself, is replaced by the built-in tree. *)
Lemma C8_counterexample :
  let tree := VDict {[ "global" := VDict {[ "reset" := VBool true ]} ]} in
  let st := sample_state tree [] None true in
  ∃ data, @yaml_dump reference tree = inr data ∧
          @yaml_load reference data = inr tree ∧
          _cfg (self (snd (@Settings.apply reference data st))) = sample_default ∧
          sample_default ≠ tree.
Proof.
  intros tree st. exists (Some tree).
  split; [reflexivity|]. split; [reflexivity|]. split.
  - vm_compute. reflexivity.
  - intros H.
    apply (f_equal (λ v, param_value v "global/reset" VNone true)) in H.
    vm_compute in H. discriminate.
Qed.

(** C8 (amended): for every current tree that is a mapping in which every
    mapping below the root passes the writability test of the merge, and
    whose [global/reset] is not true, the merge of the tree into itself is
    the tree, and applying the tree's own serialization leaves the tree
    unchanged. *)
Theorem C8_own_serialization_changes_nothing `{env : Environment}
    (st : state Text) (d : gmap string Value) data :
  _cfg (self st) = VDict d →
  yaml_dump (VDict d) = inr data →
  yaml_load data = inr (VDict d) →
  groups_writable (VDict d) = true →
  truthy (param_value (VDict d) "global/reset" (VBool false) true) = false →
  _apply_recursive (VDict d) (VDict d) = inr (VDict d) ∧
  _cfg (self (snd (Settings.apply data st))) = VDict d.
Proof.
  intros Hcfg _ Hl Hw Hreset.
  assert (_apply_recursive (VDict d) (VDict d) = inr (VDict d)) as Hm.
  { by apply merge_into_itself. }
  split; [done|].
  rewrite (apply_cfg st data (VDict d) (VDict d)); [|done|by rewrite Hcfg].
  by rewrite Hreset.
Qed.

Lemma C8_own_serialization_changes_nothing_witness :
  _cfg (self (snd (@Settings.apply reference (Some sample_default)
                     (sample_state sample_default [1] None true))))
  = sample_default.
Proof.
  destruct (@C8_own_serialization_changes_nothing reference
              (sample_state sample_default [1] None true)
              (items_of sample_default)
              (Some sample_default)) as [_ H].
  - vm_compute. reflexivity.
  - vm_compute. reflexivity.
  - vm_compute. reflexivity.
  - vm_compute. reflexivity.
  - vm_compute. reflexivity.
  - exact H.
Defined.

(** ** C9: reload listeners *)

(** C9 (as stated, refuted): a listener is registered with immediate
    invocation and called once; the [apply] that follows is given a text
    that does not parse, raises the error of [yaml.load] and calls nobody:
    the listener has been called once in all, not once more. *)
Lemma C9_counterexample :
  let st0 := sample_state sample_default [] None true in
  let st1 := snd (@Settings.add_reload_listener reference 7 true st0) in
  let st2 := snd (@Settings.apply reference None st1) in
  _reload_callbacks (self st1) = [7] ∧
  calls (trace st1) = [(7, sample_default)] ∧
  fst (@Settings.apply reference None st1) = inl YAMLError ∧
  calls (trace st2) = [(7, sample_default)] ∧
  times_called 7 (calls (trace st2)) = 1.
Proof. repeat split; vm_compute; reflexivity. Qed.

(** C9 (amended): registering a listener that is not yet in the list, with
    immediate invocation, appends it and calls it exactly once, with the
    current tree; registering it again adds nothing (and calls nothing), so
    the list never holds it twice; and after any further calls of the
    methods, every [apply] or [reload] that returns calls the listeners in
    subscription order, each with the tree just installed, the registered
    listener exactly once.  [apply] returns when the payload parses, the
    tree is a mapping and the file takes the serialization of the tree
    that is installed; [reload] returns unless the parser raises something
    else than [yaml.YAMLError] or [IOError].  An [apply] whose payload does
    not parse, or whose current tree is no mapping, raises before anything
    is changed and calls no listener. *)
Theorem C9_listener_called_once_in_order `{env : Environment}
    (st : state Text) cb :
  NoDup (_reload_callbacks (self st)) →
  cb ∉ _reload_callbacks (self st) →
  let st1 := with_events [Called cb (_cfg (self st))] (with_callback cb st) in
  Settings.add_reload_listener cb true st = (inr tt, st1) ∧
  _reload_callbacks (self st1) = _reload_callbacks (self st) ++ [cb] ∧
  NoDup (_reload_callbacks (self st1)) ∧
  (∀ call_now, Settings.add_reload_listener cb call_now st1 = (inr tt, st1)) ∧
  ∀ rs : list request,
    let st2 := serve_all st1 rs in
    (∀ data, fst (Settings.apply data st2) = inr tt →
       let st3 := snd (Settings.apply data st2) in
       let called := map (λ c, (c, _cfg (self st3))) (_reload_callbacks (self st2)) in
       calls (trace st3) = calls (trace st2) ++ called ∧
       times_called cb called = 1) ∧
    (fst (Settings.reload st2) = inr tt →
       let st3 := snd (Settings.reload st2) in
       let called := map (λ c, (c, _cfg (self st3))) (_reload_callbacks (self st2)) in
       calls (trace st3) = calls (trace st2) ++ called ∧
       times_called cb called = 1) ∧
    (∀ data new_data merged text,
       yaml_load data = inr new_data →
       _apply_recursive new_data (_cfg (self st2)) = inr merged →
       writable (disk st2) = true → room (disk st2) = true →
       yaml_dump (if truthy (param_value merged "global/reset" (VBool false) true)
                  then Settings.default (self st2) else merged) = inr text →
       fst (Settings.apply data st2) = inr tt) ∧
    (match load_file st2 with
     | inl exc => handled_by_reload exc = true
     | inr _ => True
     end →
     fst (Settings.reload st2) = inr tt) ∧
    (∀ data exc, yaml_load data = inl exc →
       Settings.apply data st2 = (inl exc, st2)) ∧
    (∀ data new_data, yaml_load data = inr new_data →
       is_dict (_cfg (self st2)) = false →
       Settings.apply data st2 = (inl AttributeError, st2)).
Proof.
  intros Hnd Hout st1.
  assert (Settings.add_reload_listener cb true st = (inr tt, st1)) as Hadd.
  { by rewrite add_new_listener. }
  assert (NoDup (_reload_callbacks (self st1))) as Hnd1.
  { pose proof (add_reload_listener_NoDup st cb true Hnd) as H.
    by rewrite Hadd in H. }
  assert (cb ∈ _reload_callbacks (self st1)) as Hin1.
  { simpl. apply elem_of_app. right. by apply list_elem_of_singleton. }
  split; [done|]. split; [done|]. split; [done|].
  split; [intros call_now; by apply add_known_listener|].
  intros rs st2.
  pose proof (listeners_NoDup st1 rs Hnd1) as Hnd2.
  pose proof (listeners_kept st1 rs cb Hin1) as Hin2.
  split; [|split; [|split; [|split; [|split]]]].
  - intros data Hret st3 called. split.
    + by apply apply_calls.
    + by apply times_called_once.
  - intros Hret st3 called. split.
    + by apply reload_calls.
    + by apply times_called_once.
  - intros data new_data merged text. by apply apply_returns.
  - by apply reload_returns.
  - intros data exc Hl. by apply apply_load_error.
  - intros data new_data Hl Hd. by eapply apply_not_dict.
Qed.

Lemma C9_listener_called_once_in_order_witness :
  @Settings.add_reload_listener reference 7 true
    (sample_state sample_default [3; 5] None true)
  = (inr tt,
     with_events [Called 7 sample_default]
       (with_callback 7 (sample_state sample_default [3; 5] None true))).
Proof.
  apply (@C9_listener_called_once_in_order reference
           (sample_state sample_default [3; 5] None true) 7).
  - apply (bool_decide_eq_true_1 (NoDup [3; 5])). reflexivity.
  - apply (bool_decide_eq_true_1 (7 ∉ [3; 5])). reflexivity.
Defined.

(** ** C10: what [reload] installs *)

(** C10: when the file exists, can be read and its text parses, [reload]
    installs the parse result as the tree, whatever it is ([None] for a
    text that parses to [None], as an empty file does), and calls the
    listeners with it.  The built-in tree is installed exactly when opening
    or reading the file raises [IOError] or the parser raises
    [yaml.YAMLError] (or [IOError]); any other exception leaves [reload]
    with the tree untouched. *)
Theorem C10_reload_installs_parse_result `{env : Environment}
    (st : state Text) text v :
  content (disk st) = Some text →
  readable (disk st) = true →
  yaml_load text = inr v →
  Settings.reload st =
    (inr tt,
     with_events (Logged (LoadedConfiguration (filename (self st)))
                  :: map (λ cb, Called cb v) (_reload_callbacks (self st)))
       (with_cfg v st)) ∧
  _cfg (self (snd (Settings.reload st))) = v ∧
  (v = VNone → _cfg (self (snd (Settings.reload st))) = VNone) ∧
  ∀ st0 : state Text,
    match load_file st0 with
    | inr v0 => _cfg (self (snd (Settings.reload st0))) = v0
    | inl exc =>
        if handled_by_reload exc
        then Settings.reload st0 =
             (inr tt,
              with_events
                (Logged (UseDefaultConfiguration exc)
                 :: map (λ cb, Called cb (Settings.default (self st0)))
                      (_reload_callbacks (self st0)))
                (with_cfg (Settings.default (self st0)) st0))
        else Settings.reload st0 = (inl exc, st0)
    end.
Proof.
  intros Hc Hr Hl.
  assert (load_file st = inr v) as Hfile.
  { unfold load_file. by rewrite Hc, Hr. }
  rewrite (reload_loaded _ _ Hfile).
  split; [done|]. split; [done|]. split; [by intros ->|].
  intros st0. destruct (load_file st0) as [exc|v0] eqn:H0.
  - destruct (handled_by_reload exc) eqn:Hh.
    + by apply reload_default.
    + by apply reload_raises.
  - by rewrite (reload_loaded _ _ H0).
Qed.

Lemma C10_reload_installs_parse_result_witness :
  _cfg (self (snd (@Settings.reload reference
                     (sample_state sample_default [3] (Some (Some VNone)) true))))
  = VNone.
Proof.
  apply (@C10_reload_installs_parse_result reference
           (sample_state sample_default [3] (Some (Some VNone)) true)
           (Some VNone) VNone);
    reflexivity.
Defined.

(** * Further properties *)

(** ** How a parameter name is split *)

Lemma split_slash_cons s : ∃ h t, split_slash s = h :: t.
Proof.
  destruct s as [|c r]; simpl; [by eexists _, _|].
  destruct (is_slash c); [by eexists _, _|].
  destruct (split_slash r); by eexists _, _.
Qed.

Lemma split_slash_String c r :
  split_slash (String c r) =
  if is_slash c then "" :: split_slash r
  else match split_slash r with
       | h :: t => String c h :: t
       | [] => [String c ""]
       end.
Proof. done. Qed.

Lemma rsplit_slash_String c r :
  rsplit_slash (String c r) =
  match fst (rsplit_slash r) with
  | String _ _ => (String c (fst (rsplit_slash r)), snd (rsplit_slash r))
  | EmptyString =>
      if is_slash c then (String c "", snd (rsplit_slash r))
      else ("", String c (snd (rsplit_slash r)))
  end.
Proof. simpl. by destruct (rsplit_slash r) as [[|] ?]. Qed.

(** The last item is the base name, and the items before it are those of
    the part before the last slash. *)
Lemma split_slash_rsplit p :
  ∃ init, split_slash p = init ++ [snd (rsplit_slash p)] ∧
    (fst (rsplit_slash p) = "" → init = []) ∧
    (fst (rsplit_slash p) ≠ "" →
     split_slash (fst (rsplit_slash p)) = init ++ [""]).
Proof.
  induction p as [|c r (init & Hsplit & Hnil & Hhead)].
  - exists []. by repeat split.
  - rewrite rsplit_slash_String, split_slash_String.
    destruct (fst (rsplit_slash r)) as [|c' h'] eqn:Hfst.
    + rewrite (Hnil eq_refl) in Hsplit. rewrite Hsplit.
      destruct (is_slash c) eqn:Hc.
      * exists [""]. repeat split; [done|].
        intros _. simpl. by rewrite Hc.
      * exists []. by repeat split.
    + assert (split_slash (String c' h') = init ++ [""]) as Hh by by apply Hhead.
      destruct (is_slash c) eqn:Hc.
      * exists ("" :: init). rewrite Hsplit. repeat split; [done|].
        intros _. cbn [fst]. by rewrite split_slash_String, Hc, Hh.
      * destruct init as [|i0 itl].
        { exfalso. destruct (split_slash_cons h') as (x & y & Hxy).
          rewrite split_slash_String, Hxy in Hh. by destruct (is_slash c'). }
        exists (String c i0 :: itl). rewrite Hsplit. repeat split; [done|].
        intros _. cbn [fst]. by rewrite split_slash_String, Hc, Hh.
Qed.

Lemma rstrip_slash_String c r :
  rstrip_slash (String c r) =
  match rstrip_slash r with
  | EmptyString => if is_slash c then "" else String c ""
  | String _ _ => String c (rstrip_slash r)
  end.
Proof. simpl. by destruct (rstrip_slash r). Qed.

(** Stripping the slashes at the end only drops empty items at the end. *)
Lemma split_slash_rstrip s :
  ∃ k, split_slash s =
       match rstrip_slash s with
       | EmptyString => "" :: replicate k ""
       | String _ _ => split_slash (rstrip_slash s) ++ replicate k ""
       end.
Proof.
  induction s as [|c r [k IH]].
  - by exists 0.
  - rewrite rstrip_slash_String, (split_slash_String c r).
    destruct (rstrip_slash r) as [|c' r'] eqn:Hr.
    + rewrite IH. destruct (is_slash c) eqn:Hc.
      * by exists (S k).
      * exists k. simpl. by rewrite Hc.
    + rewrite IH. rewrite (split_slash_String c (String c' r')).
      destruct (is_slash c) eqn:Hc.
      * by exists k.
      * exists k.
        destruct (split_slash_cons (String c' r')) as (x & y & Hxy).
        by rewrite Hxy.
Qed.

Lemma nonempty_items_replicate k : nonempty_items (replicate k "") = [].
Proof.
  induction k as [|k IH]; [done|]. simpl. unfold nonempty_items in *.
  rewrite filter_cons_False; [done|]. intros H. by apply H.
Qed.

Lemma nonempty_items_app l1 l2 :
  nonempty_items (l1 ++ l2) = nonempty_items l1 ++ nonempty_items l2.
Proof. apply filter_app. Qed.

Lemma nonempty_items_rstrip s :
  nonempty_items (split_slash (rstrip_slash s)) = nonempty_items (split_slash s).
Proof.
  destruct (split_slash_rstrip s) as [k Hk]. rewrite Hk.
  destruct (rstrip_slash s) eqn:Hs.
  - change ("" :: replicate k "") with (replicate (S k) "").
    by rewrite nonempty_items_replicate.
  - by rewrite nonempty_items_app, nonempty_items_replicate, app_nil_r.
Qed.

(** The items [set_param] walks, then its final key, are the items of the
    name, the empty ones before the last left out. *)
Lemma split_slash_dirname p :
  ∃ init, split_slash p = init ++ [basename p] ∧
          nonempty_items (split_slash (dirname p)) = nonempty_items init.
Proof.
  destruct (split_slash_rsplit p) as (init & Hsplit & Hnil & Hhead).
  exists init. split; [done|]. unfold dirname.
  destruct (fst (rsplit_slash p)) as [|c h] eqn:Hfst.
  - simpl. by rewrite Hnil.
  - assert (nonempty_items (split_slash (String c h)) = nonempty_items init) as H.
    { rewrite Hhead by done. rewrite nonempty_items_app.
      change (nonempty_items [""]) with (nonempty_items (replicate 1 "")).
      by rewrite nonempty_items_replicate, app_nil_r. }
    cbv zeta.
    destruct (negb (String c h =? "")%string && negb (all_slashes (String c h)));
      [by rewrite nonempty_items_rstrip|done].
Qed.

(** ** The walk of [set_param], step by step *)

Lemma nonempty_items_cons item rest :
  nonempty_items (item :: rest) =
  if String.eqb item "" then nonempty_items rest else item :: nonempty_items rest.
Proof.
  unfold nonempty_items. destruct (String.eqb_spec item "") as [->|Hne].
  - rewrite filter_cons_False; [done|]. intros H. by apply H.
  - by rewrite filter_cons_True.
Qed.

Lemma descend_nonempty path v : descend path v = descend (nonempty_items path) v.
Proof.
  revert v. induction path as [|item rest IH]; intros v; [done|].
  rewrite nonempty_items_cons. simpl.
  destruct (String.eqb item "") eqn:He; [apply IH|].
  simpl. rewrite He. destruct v as [| | | | | |d]; try done.
  destruct (d !! item); simpl; [apply IH|done].
Qed.

Lemma set_walk_nonempty path final cfg_item :
  Settings.set_walk path final cfg_item
  = Settings.set_walk (nonempty_items path) final cfg_item.
Proof.
  revert cfg_item. induction path as [|item rest IH]; intros cfg_item; [done|].
  rewrite nonempty_items_cons. simpl.
  destruct (String.eqb item "") eqn:He; [apply IH|].
  simpl. rewrite He. destruct cfg_item; try done.
  by rewrite IH.
Qed.

(** Without empty items, [descend] is the walk of [param]. *)
Lemma descend_walk path v x :
  Forall (λ item, item ≠ "") path →
  descend path v = Some x ↔ walk path v = inr x.
Proof.
  intros Hp. revert v. induction Hp as [|item rest Hne _ IH]; intros v; simpl.
  - split; congruence.
  - apply String.eqb_neq in Hne. rewrite Hne.
    destruct v as [| | | | | |d]; simpl; try (split; congruence).
    destruct (d !! item); simpl; [apply IH|split; congruence].
Qed.

Lemma walk_app path1 path2 v :
  walk (path1 ++ path2) v =
  match walk path1 v with
  | inr x => walk path2 x
  | inl exc => inl exc
  end.
Proof.
  revert v. induction path1 as [|item rest IH]; intros v; simpl; [done|].
  destruct (getitem v item); [done|apply IH].
Qed.

Lemma param_lookup_whole cfg param_name :
  param_lookup cfg param_name false = walk (split_slash param_name) cfg.
Proof.
  unfold param_lookup.
  by destruct (walk (split_slash param_name) cfg) as [|[]].
Qed.

Lemma plain_name_items param_name :
  plain_name param_name = true →
  Forall (λ item, item ≠ "") (split_slash param_name).
Proof.
  unfold plain_name. rewrite forallb_forall, Forall_forall.
  intros H item Hin. apply list_elem_of_In, H in Hin.
  apply negb_true_iff, String.eqb_neq in Hin. done.
Qed.

Lemma nonempty_items_all path :
  Forall (λ item, item ≠ "") path → nonempty_items path = path.
Proof.
  induction 1 as [|item rest Hne _ IH]; [done|].
  rewrite nonempty_items_cons, IH.
  apply String.eqb_neq in Hne. by rewrite Hne.
Qed.

(** For a plain name, the node [set_param] looks at is the node [param]
    finds. *)
Lemma node_at_walk cfg param_name node :
  plain_name param_name = true →
  node_at cfg param_name = Some node ↔
  walk (split_slash param_name) cfg = inr node.
Proof.
  intros Hplain. apply plain_name_items in Hplain.
  destruct (split_slash_dirname param_name) as (init & Hsplit & Hdir).
  rewrite Hsplit in Hplain |- *. apply Forall_app in Hplain as [Hinit _].
  unfold node_at. rewrite descend_nonempty, Hdir, (nonempty_items_all _ Hinit).
  rewrite walk_app.
  destruct (descend init cfg) as [v|] eqn:Hd.
  - apply (descend_walk _ _ _ Hinit) in Hd. rewrite Hd. simpl.
    destruct v as [| | | | | |d]; simpl; try (split; congruence).
    destruct (d !! basename param_name); split; congruence.
  - destruct (walk init cfg) as [exc|v] eqn:Hw; [split; congruence|].
    apply (descend_walk _ _ _ Hinit) in Hw. congruence.
Qed.

Lemma descend_empty_dict path pname :
  match descend path (VDict ∅) with
  | Some (VDict d) => d !! pname
  | _ => None
  end = None.
Proof.
  induction path as [|item rest IH]; simpl; [done|].
  destruct (String.eqb item ""); [done|].
  by rewrite lookup_empty.
Qed.

Lemma can_set_empty_dict path pname : can_set path pname (VDict ∅) = true.
Proof.
  induction path as [|item rest IH]; simpl.
  - by rewrite lookup_empty.
  - destruct (String.eqb item ""); [done|]. by rewrite lookup_empty.
Qed.

(** A walk that meets no exception leaves the stored node under the final
    key, at the end of the path, which now exists. *)
Lemma set_walk_stores path :
  ∀ cfg_item param_name pname value,
    can_set path pname cfg_item = true →
    ∃ cfg' (g' : gmap string Value),
      Settings.set_walk path (Settings.set_leaf param_name pname value) cfg_item
      = (cfg', None) ∧
      descend path cfg' = Some (VDict g') ∧
      g' !! pname =
      Some (stored_node value
              match descend path cfg_item with
              | Some (VDict d) => d !! pname
              | _ => None
              end).
Proof.
  induction path as [|item rest IH]; intros cfg_item param_name pname value Hcan;
    simpl in *.
  - destruct cfg_item as [| | | | | |d]; try done.
    unfold Settings.set_leaf.
    destruct (d !! pname) as [[| | | | | |leaf]|] eqn:Hp;
      try (eexists _, _; split; [done|];
           split; [done|]; by rewrite lookup_insert_eq).
    rewrite Hcan. eexists _, _. split; [done|]. split; [done|].
    by rewrite lookup_insert_eq.
  - destruct (String.eqb item "") eqn:He; [by apply IH|].
    destruct cfg_item as [| | | | | |d]; try done.
    destruct (d !! item) as [child|] eqn:Hchild; simpl.
    + destruct (IH child param_name pname value Hcan) as (c' & g' & -> & Hd & Hg).
      eexists _, g'. split; [done|].
      cbn [descend]. rewrite ?He, lookup_insert_eq. done.
    + destruct (IH (VDict ∅) param_name pname value (can_set_empty_dict _ _))
        as (c' & g' & -> & Hd & Hg).
      rewrite descend_empty_dict in Hg.
      eexists _, g'. split; [done|].
      cbn [descend]. rewrite ?He, lookup_insert_eq. done.
Qed.

(** What [param] walks to after a [set_param] whose walk met no exception,
    for a name without empty items. *)
Lemma walk_after_set_param `{env : Environment} (st : state Text)
    param_name value :
  plain_name param_name = true →
  settable (_cfg (self st)) param_name = true →
  walk (split_slash param_name)
    (_cfg (self (snd (Settings.set_param param_name value st))))
  = inr (stored_node value
           match walk (split_slash param_name) (_cfg (self st)) with
           | inr node => Some node
           | inl _ => None
           end).
Proof.
  intros Hplain Hset.
  destruct (set_walk_stores _ _ param_name _ value Hset) as (cfg' & g' & Hw & Hd & Hg).
  rewrite set_param_cfg. unfold set_outcome. rewrite Hw. simpl.
  apply (node_at_walk _ _ _ Hplain).
  unfold node_at. rewrite Hd, Hg. do 2 f_equal.
  fold (node_at (_cfg (self st)) param_name).
  destruct (node_at (_cfg (self st)) param_name) as [node|] eqn:Hn.
  - apply (node_at_walk _ _ _ Hplain) in Hn. by rewrite Hn.
  - destruct (walk _ _) as [exc|node] eqn:Hwalk; [done|].
    apply (node_at_walk _ _ _ Hplain) in Hwalk. congruence.
Qed.

(** ** [param] *)

(** X1: [param] never raises and changes neither the object nor the file;
    all it may add to the trace is the printed exception.  When the walk
    along the name fails (an item is missing, or a value on the way is no
    mapping), it prints the exception and answers [default_value]. *)
Theorem param_answers_default_on_failure `{env : Environment}
    (st : state Text) param_name default_value extract_value :
  (∃ v evs,
     Settings.param param_name default_value extract_value st
     = (inr v, with_events evs st) ∧ calls evs = []) ∧
  (∀ exc, walk (split_slash param_name) (_cfg (self st)) = inl exc →
     Settings.param param_name default_value extract_value st
     = (inr default_value, with_events [Printed exc] st)).
Proof.
  split.
  - unfold Settings.param. unfold_run.
    destruct (param_lookup _ _ _) as [exc|v].
    + by exists default_value, [Printed exc].
    + exists v, []. by rewrite with_events_nil.
  - intros exc Hw. unfold Settings.param, param_lookup. unfold_run.
    by rewrite Hw.
Qed.

(** ** [set_param] *)

(** X2: after [set_param] on a name without empty items whose walk meets
    no exception, [param] without extraction finds under that name the old
    leaf with its [:value] replaced (its other entries kept), or the new
    value where the old node was no mapping, or a new leaf
    [{':value': value}] where there was none, the groups on the way
    having been created. *)
Theorem set_param_stores_node `{env : Environment} (st : state Text)
    param_name value default_value :
  plain_name param_name = true →
  settable (_cfg (self st)) param_name = true →
  let st' := snd (Settings.set_param param_name value st) in
  let found := match param_lookup (_cfg (self st)) param_name false with
               | inr node => Some node
               | inl _ => None
               end in
  Settings.param param_name default_value false st'
  = (inr (stored_node value found), st').
Proof.
  intros Hplain Hset st' found.
  pose proof (walk_after_set_param st param_name value Hplain Hset) as Hwalk.
  unfold Settings.param. unfold_run. fold st' in Hwalk.
  rewrite param_lookup_whole, Hwalk.
  unfold found. by rewrite param_lookup_whole.
Qed.

Lemma set_param_stores_node_witness :
  let st := sample_state sample_default [] None true in
  @Settings.param reference "sysmon/CPU/cores" VNone false
    (snd (@Settings.set_param reference "sysmon/CPU/cores" (VInt 4) st))
  = (inr (VDict {[ ":value" := VInt 4 ]}),
     snd (@Settings.set_param reference "sysmon/CPU/cores" (VInt 4) st)).
Proof.
  intros st.
  apply (@set_param_stores_node reference st "sysmon/CPU/cores" (VInt 4) VNone).
  - reflexivity.
  - vm_compute. reflexivity.
Defined.

(** X3: round trip.  After [set_param(name, value)] with a value that is
    no mapping, on a name without empty items whose walk meets no
    exception, [param(name)] answers [value], whether the leaf existed with
    metadata, existed as a bare value, or was created. *)
Theorem set_param_then_param `{env : Environment} (st : state Text)
    param_name value default_value :
  plain_name param_name = true →
  settable (_cfg (self st)) param_name = true →
  is_dict value = false →
  fst (Settings.param param_name default_value true
         (snd (Settings.set_param param_name value st)))
  = inr value.
Proof.
  intros Hplain Hset Hval.
  pose proof (walk_after_set_param st param_name value Hplain Hset) as Hwalk.
  unfold Settings.param, param_lookup. unfold_run. rewrite Hwalk.
  destruct (walk (split_slash param_name) (_cfg (self st)))
    as [exc|[| | | | | |leaf]]; simpl;
    rewrite ?lookup_insert_eq; try done; by destruct value.
Qed.

Lemma set_param_then_param_witness :
  fst (@Settings.param reference "global/grpc_timeout" (VInt 0) true
         (snd (@Settings.set_param reference "global/grpc_timeout" (VFloat 20.0)
                 (sample_state sample_default [] None true))))
  = inr (VFloat 20.0).
Proof.
  apply (@set_param_then_param reference
           (sample_state sample_default [] None true)
           "global/grpc_timeout" (VFloat 20.0) (VInt 0)).
  - reflexivity.
  - vm_compute. reflexivity.
  - reflexivity.
Defined.

(** X5: [set_param] never raises, never calls a listener and never changes
    the list of listeners, whatever the name, the value, the tree and the
    file. *)
Theorem set_param_is_silent `{env : Environment} (st : state Text)
    param_name value :
  let st' := snd (Settings.set_param param_name value st) in
  fst (Settings.set_param param_name value st) = inr tt ∧
  calls (trace st') = calls (trace st) ∧
  _reload_callbacks (self st') = _reload_callbacks (self st).
Proof.
  intros st'. split; [apply set_param_returns|].
  split; [|apply set_param_listeners].
  unfold st'. rewrite set_param_run.
  destruct (set_outcome _ _ _) as [cfg [exc|]]; simpl.
  - by rewrite calls_app, app_nil_r.
  - pose proof (save_calls (with_cfg cfg st)) as Hc.
    destruct (Settings.save (with_cfg cfg st)) as [[exc|[]] st1]; simpl in *;
      [|done].
    by rewrite calls_app, Hc, app_nil_r.
Qed.

(** X6: write-through.  When the walk of [set_param] meets no exception,
    the new tree is in memory before [save] runs: with a file that takes
    the write, the file then holds the serialization of the new tree; with
    a file that cannot be opened, the [IOError] is printed, the file is
    untouched and the object keeps the new, unsaved tree. *)
Theorem set_param_writes_through `{env : Environment} (st : state Text)
    param_name value :
  settable (_cfg (self st)) param_name = true →
  let cfg := (set_outcome (_cfg (self st)) param_name value).1 in
  (∀ text, writable (disk st) = true → room (disk st) = true →
     yaml_dump cfg = inr text →
     Settings.set_param param_name value st
     = (inr tt,
        with_events [Logged (ConfigurationSaved (filename (self st)))]
          (with_content text (with_cfg cfg st)))) ∧
  (writable (disk st) = false →
     Settings.set_param param_name value st
     = (inr tt, with_events [Printed IOError] (with_cfg cfg st))).
Proof.
  intros Hset cfg.
  destruct (set_walk_stores _ _ param_name _ value Hset) as (cfg' & g' & Hw & _).
  assert (set_outcome (_cfg (self st)) param_name value = (cfg, None)) as Hout.
  { unfold cfg, set_outcome. by rewrite Hw. }
  split.
  - intros text Hwr Hroom Hdump.
    by rewrite set_param_run, Hout, (save_written (with_cfg cfg st) text).
  - intros Hwr.
    by rewrite set_param_run, Hout, (save_unwritable (with_cfg cfg st)).
Qed.

Lemma set_param_writes_through_witness :
  let st := sample_state (VDict ∅) [] None false in
  @Settings.set_param reference "a/b" (VInt 1) st
  = (inr tt,
     with_events [Printed IOError]
       (with_cfg (VDict {[ "a" := VDict {[ "b" := VDict {[ ":value" := VInt 1 ]} ]} ]})
          st)).
Proof.
  intros st.
  apply (@set_param_writes_through reference st "a/b" (VInt 1)).
  - vm_compute. reflexivity.
  - reflexivity.
Defined.

(** ** [save] and [reload] *)



(** X8: round trip through the file.  When the serialization of the tree
    parses back to the tree and the file takes the write and can be read,
    [save] followed by [reload] leaves the tree as it was, with its
    serialization in the file, and calls every listener once, in order,
    with that tree. *)
Theorem save_then_reload `{env : Environment} (st : state Text) text :
  yaml_dump (_cfg (self st)) = inr text →
  yaml_load text = inr (_cfg (self st)) →
  writable (disk st) = true → room (disk st) = true →
  readable (disk st) = true →
  Settings.bind Settings.save (λ _, Settings.reload) st =
  (inr tt,
   with_events
     ([Logged (ConfigurationSaved (filename (self st)));
       Logged (LoadedConfiguration (filename (self st)))]
      ++ map (λ cb, Called cb (_cfg (self st))) (_reload_callbacks (self st)))
     (with_content text st)).
Proof.
  intros Hd Hl Hw Hroom Hr.
  unfold Settings.bind. rewrite (save_written st text) by done.
  rewrite (reload_loaded _ (_cfg (self st))).
  2:{ unfold load_file. simpl. by rewrite Hr. }
  simpl. rewrite with_cfg_events, with_events_app. f_equal. f_equal.
  by destruct st as [[] [] ?].
Qed.

Lemma save_then_reload_witness :
  let st := sample_state sample_default [3; 5] None true in
  @Settings.bind reference _ _ Settings.save (λ _, Settings.reload) st =
  (inr tt,
   with_events
     [Logged (ConfigurationSaved "/tmp/node_manager_daemon.yaml");
      Logged (LoadedConfiguration "/tmp/node_manager_daemon.yaml");
      Called 3 sample_default; Called 5 sample_default]
     (with_content (Some sample_default) st)).
Proof.
  intros st.
  apply (@save_then_reload reference st (Some sample_default)); reflexivity.
Defined.

(** ** [apply] *)

(** X9: when the [global/reset] parameter of the merged tree is not true,
    [apply] leaves the merged tree as the tree, runs [save] on it and then
    calls every listener with it, in order; with a file that takes the
    write, the file holds the serialization of the merged tree. *)
Theorem apply_installs_merged_tree `{env : Environment} (st : state Text)
    data new_data merged :
  yaml_load data = inr new_data →
  _apply_recursive new_data (_cfg (self st)) = inr merged →
  truthy (param_value merged "global/reset" (VBool false) true) = false →
  let notified := map (λ cb, Called cb merged) (_reload_callbacks (self st)) in
  _cfg (self (snd (Settings.apply data st))) = merged ∧
  (∀ text, writable (disk st) = true → room (disk st) = true →
     yaml_dump merged = inr text →
     ∃ printed,
       Settings.apply data st =
       (inr tt,
        with_events
          (printed ++
           [Logged NewConfigurationApplied;
            Logged (ConfigurationSaved (filename (self st)))] ++ notified)
          (with_content text (with_cfg merged st))) ∧
       calls printed = []).
Proof.
  intros Hl Hm Hreset notified. split.
  - by rewrite (apply_cfg _ _ _ _ Hl Hm), Hreset.
  - intros text Hw Hr Hd.
    rewrite (apply_run _ _ _ _ Hl Hm), save_then_notify.
    unfold applied. rewrite Hreset.
    destruct (param_lookup merged "global/reset" true) as [exc|v].
    + exists [Printed exc].
      rewrite (save_written _ text) by done. simpl.
      split; [|done]. unfold with_events, with_content, with_cfg. simpl.
      by rewrite <- ?app_assoc.
    + exists []. rewrite (save_written _ text) by done. simpl.
      split; [|done]. unfold with_events, with_content, with_cfg. simpl.
      by rewrite <- ?app_assoc.
Qed.

Lemma apply_installs_merged_tree_witness :
  let tree := VDict {[ "global" := VDict {[ "reset" := VBool false;
                                            "grpc_timeout" := VFloat 15 ]} ]} in
  let payload := VDict {[ "global" := VDict {[ "grpc_timeout" := VFloat 99 ]} ]} in
  _cfg (self (snd (@Settings.apply reference (Some payload)
                     (sample_state tree [3] None true))))
  = VDict {[ "global" := VDict {[ "reset" := VBool false;
                                  "grpc_timeout" := VFloat 99 ]} ]}.
Proof.
  intros tree payload.
  apply (@apply_installs_merged_tree reference (sample_state tree [3] None true)
           (Some payload) payload).
  - reflexivity.
  - vm_compute. reflexivity.
  - vm_compute. reflexivity.
Defined.

(** X10: [apply] fails before it changes anything when the payload does
    not parse (the exception of [yaml.load] is raised) and when the
    current tree is no mapping ([AttributeError], for every payload that
    parses): the tree, the file and the trace are as before, and no
    listener is called.  So once [reload] has read a file whose text parses
    to something that is no mapping, every [apply] fails. *)
Theorem apply_fails_without_change `{env : Environment} (st : state Text) data :
  (∀ exc, yaml_load data = inl exc →
     Settings.apply data st = (inl exc, st)) ∧
  (∀ new_data, yaml_load data = inr new_data →
     is_dict (_cfg (self st)) = false →
     Settings.apply data st = (inl AttributeError, st)) ∧
  (∀ new_data v, yaml_load data = inr new_data →
     load_file st = inr v → is_dict v = false →
     fst (Settings.apply data (snd (Settings.reload st))) = inl AttributeError).
Proof.
  split; [|split].
  - intros exc Hl. by apply apply_load_error.
  - intros new_data Hl Hd. by eapply apply_not_dict.
  - intros new_data v Hl Hfile Hv.
    rewrite (reload_loaded _ _ Hfile). simpl.
    by rewrite (apply_not_dict _ _ new_data).
Qed.

(** ** The merge *)

(** X11: a merge into a mapping always returns a mapping, and its keys are
    exactly the keys of the current mapping whose value is kept: every
    key but those of mappings that fail the writability test. *)
Theorem merge_result_keys new_data (items : gmap string Value) :
  ∃ merged : gmap string Value,
    _apply_recursive new_data (VDict items) = inr (VDict merged) ∧
    ∀ key, is_Some (merged !! key) ↔
           ∃ value, items !! key = Some value ∧ kept_by_merge value = true.
Proof.
  destruct (_apply_recursive_dict new_data items) as (merged & Hm & Hlook).
  exists merged. split; [done|]. intros key. rewrite Hlook.
  destruct (items !! key) as [value|] eqn:Hk; simpl.
  2:{ split; [by intros [? ?]|by intros (? & ? & _)]. }
  split.
  - intros [r Hr]. exists value. split; [done|].
    destruct value as [| | | | | |d]; try done.
    by apply item_result_dict_inv in Hr as [Hw _].
  - intros (v & [= <-] & Hkept).
    destruct (is_dict value) eqn:Hd.
    + destruct value as [| | | | | |d]; try done. simpl in Hkept.
      destruct (getitem new_data key) as [exc|sub] eqn:Hsub.
      * by rewrite (item_result_dict_fallback _ _ _ exc).
      * destruct (item_result_dict_recurse _ _ _ _ Hkept Hsub) as (m & _ & ->).
        by eexists.
    + destruct (decide (key ∈ marker_keys)) as [Hmk|Hmk].
      * by rewrite item_result_marker.
      * destruct (is_dict new_data) eqn:Hnd.
        -- destruct new_data as [| | | | | |nd]; try done.
           destruct (nd !! key) eqn:Hn.
           ++ by erewrite item_result_leaf_found.
           ++ by rewrite item_result_leaf_missing.
        -- by rewrite item_result_leaf_scalar.
Qed.

(** X12: the merge never overwrites metadata: under each of the keys
    [:hint], [:default], [:ro], [:min] and [:max], a value that is no
    mapping is in the result as it was, whatever the payload holds. *)
Theorem merge_keeps_markers new_data (items merged : gmap string Value)
    key value :
  _apply_recursive new_data (VDict items) = inr (VDict merged) →
  key ∈ marker_keys →
  items !! key = Some value → is_dict value = false →
  merged !! key = Some value.
Proof.
  intros Hm Hmk Hk Hd.
  rewrite (_apply_recursive_lookup _ _ _ _ Hm), Hk. simpl.
  by apply item_result_marker.
Qed.

Lemma merge_keeps_markers_witness :
  ({[ ":value" := VInt 7; ":min" := VInt 0 ]} : gmap string Value) !! ":min"
  = Some (VInt 0).
Proof.
  apply (merge_keeps_markers (VDict {[ ":value" := VInt 7; ":min" := VInt 5 ]})
           {[ ":value" := VInt 1; ":min" := VInt 0 ]}
           {[ ":value" := VInt 7; ":min" := VInt 0 ]} ":min" (VInt 0)).
  - vm_compute. reflexivity.
  - apply (bool_decide_eq_true_1 (":min" ∈ marker_keys)). reflexivity.
  - reflexivity.
  - reflexivity.
Defined.

(** X13: a payload mapping that has none of the keys of the current
    mapping changes no value: the result is the current mapping without
    the mappings that fail the writability test.  In particular the empty
    mapping as payload changes nothing in a mapping whose values are all
    kept. *)
Theorem merge_of_foreign_payload (nd items : gmap string Value) :
  (∀ key, is_Some (items !! key) → nd !! key = None) →
  ∃ merged : gmap string Value,
    _apply_recursive (VDict nd) (VDict items) = inr (VDict merged) ∧
    (∀ key, merged !! key =
            items !! key ≫= λ value,
              if kept_by_merge value then Some value else None) ∧
    ((∀ key value, items !! key = Some value → kept_by_merge value = true) →
     merged = items).
Proof.
  intros Hforeign.
  destruct (_apply_recursive_dict (VDict nd) items) as (merged & Hm & Hlook).
  assert (∀ key, merged !! key =
                 items !! key ≫= λ value,
                   if kept_by_merge value then Some value else None) as Hall.
  { intros key. rewrite Hlook.
    destruct (items !! key) as [value|] eqn:Hk; [simpl|done].
    assert (nd !! key = None) as Hn by (apply Hforeign; by eexists).
    destruct (is_dict value) eqn:Hd.
    - destruct value as [| | | | | |d]; try done. simpl.
      destruct (truthy (_is_writable d)) eqn:Hw.
      + apply (item_result_dict_fallback _ _ _ (KeyError key)); [done|].
        simpl. by rewrite Hn.
      + by apply item_result_readonly_dict.
    - assert (kept_by_merge value = true) as -> by by destruct value.
      destruct (decide (key ∈ marker_keys)).
      + by apply item_result_marker.
      + by apply item_result_leaf_missing. }
  exists merged. split; [done|]. split; [done|].
  intros Hkept. apply map_eq. intros key. rewrite Hall.
  destruct (items !! key) as [value|] eqn:Hk; [simpl|done].
  by rewrite (Hkept _ _ Hk).
Qed.

Lemma merge_of_foreign_payload_witness :
  ∃ merged : gmap string Value,
    _apply_recursive (VDict {[ "b" := VInt 2 ]}) (VDict {[ "a" := VInt 1 ]})
    = inr (VDict merged) ∧
    merged !! "a" = Some (VInt 1).
Proof.
  destruct (merge_of_foreign_payload {[ "b" := VInt 2 ]} {[ "a" := VInt 1 ]})
    as (merged & Hm & Hall & _).
  - intros key [value Hk].
    apply lookup_singleton_Some in Hk as [<- _]. reflexivity.
  - exists merged. split; [exact Hm|]. rewrite Hall. reflexivity.
Defined.

(** ** [__init__] and the life of an object *)

(** X14: [__init__] sets the given version and the given file name (the
    default one for an empty name), starts with no listener and calls
    none.  When the directory part of the name is empty, or names no
    directory and cannot be created, [os.makedirs] raises [OSError] before
    anything is read or logged.  When the directory is there, the file is
    left as it is, and the tree is the parse of the file when the file can
    be read and parses, the built-in tree when the file is missing,
    unreadable or malformed; any other exception of the parser leaves
    [__init__].  When the directory had to be created, there is no file
    in it and the tree is the built-in tree. *)
Theorem init_loads_or_defaults `{env : Environment} (st : state Text)
    file_name version_string :
  let new := fresh file_name version_string in
  let cfg_path := dirname (filename new) in
  let run := Settings.__init__ file_name version_string st in
  version (self run.2) = version_string ∧
  filename (self run.2)
    = (if String.eqb file_name "" then default_filename else file_name) ∧
  _reload_callbacks (self run.2) = [] ∧
  calls (trace run.2) = calls (trace st) ∧
  if String.eqb cfg_path ""
  then run.1 = inl OSError ∧ disk run.2 = disk st ∧ trace run.2 = trace st
  else if directory (disk st)
  then disk run.2 = disk st ∧
       match load_file st with
       | inr v => run.1 = inr tt ∧ _cfg (self run.2) = v
       | inl exc =>
           if handled_by_reload exc
           then run.1 = inr tt ∧ _cfg (self run.2) = Settings.default new
           else run.1 = inl exc
       end
  else if creatable (disk st)
  then run.1 = inr tt ∧ _cfg (self run.2) = Settings.default new ∧
       content (disk run.2) = None ∧ directory (disk run.2) = true
  else run.1 = inl OSError ∧ disk run.2 = disk st ∧ trace run.2 = trace st.
Proof.
  intros new cfg_path run. unfold run. rewrite init_run. cbv zeta.
  fold new. fold cfg_path.
  set (st0 := {| self := new; disk := disk st; trace := trace st |}).
  destruct (String.eqb cfg_path ""); [done|].
  destruct (directory (disk st)).
  - assert (load_file st0 = load_file st) as Hfile by done.
    unfold init_load.
    destruct (load_file st) as [exc|v] eqn:Hl.
    + destruct (handled_by_reload exc) eqn:Hh.
      * rewrite (reload_default st0 exc Hfile Hh). simpl.
        destruct (param_lookup _ _ _); simpl;
          rewrite ?calls_app; simpl; rewrite ?app_nil_r; done.
      * by rewrite (reload_raises st0 exc Hfile Hh).
    + rewrite (reload_loaded st0 v Hfile). simpl.
      destruct (param_lookup _ _ _); simpl;
        rewrite ?calls_app; simpl; rewrite ?app_nil_r; done.
  - destruct (creatable (disk st)); [|done].
    unfold init_load.
    rewrite (reload_default (with_directory st0) IOError) by done. simpl.
    destruct (param_lookup _ _ _); simpl;
      rewrite ?calls_app; simpl; rewrite ?app_nil_r; done.
Qed.

(** A file name without a directory part: [__init__] raises. *)
Example init_bare_file_name :
  fst (@Settings.__init__ reference "nm.yaml" "1.0.1"
         (sample_state VNone [] None true)) = inl OSError.
Proof. vm_compute. reflexivity. Qed.

(** X15: over the whole life of an object, from [__init__] through any
    sequence of [set_param], [reload], [save], [apply] and
    [add_reload_listener] calls, the list of listeners never holds a
    listener twice, and a listener once registered stays registered: no
    method removes one. *)
Theorem listeners_over_the_life `{env : Environment} (st : state Text)
    file_name version_string (rs later : list request) cb :
  let born := snd (Settings.__init__ file_name version_string st) in
  NoDup (_reload_callbacks (self (serve_all born rs))) ∧
  (cb ∈ _reload_callbacks (self (serve_all born rs)) →
   cb ∈ _reload_callbacks (self (serve_all born (rs ++ later)))).
Proof.
  intros born. split.
  - apply listeners_NoDup. unfold born. rewrite init_listeners. constructor.
  - intros Hin. unfold serve_all. rewrite fold_left_app.
    by apply listeners_kept.
Qed.

(** X16: [yaml] answers the serialization of the current tree and changes
    nothing, and it is this text that [save] leaves in a file that takes
    the write. *)
Theorem yaml_is_what_save_writes `{env : Environment} (st : state Text) text :
  yaml_dump (_cfg (self st)) = inr text →
  Settings.yaml st = (inr text, st) ∧
  (writable (disk st) = true → room (disk st) = true →
   content (disk (snd (Settings.save st))) = Some text).
Proof.
  intros Hd. split.
  - unfold Settings.yaml. unfold_run. by rewrite Hd.
  - intros Hw Hr. by rewrite (save_written st text).
Qed.

Lemma yaml_is_what_save_writes_witness :
  @Settings.yaml reference (sample_state sample_default [] None true)
  = (inr (Some sample_default), sample_state sample_default [] None true).
Proof.
  apply (@yaml_is_what_save_writes reference
           (sample_state sample_default [] None true) (Some sample_default)).
  reflexivity.
Defined.
